(** * LogitLossDelta: the logistic loss for block coordinate descent

    A shallow embedding of [src/loss/logit_loss_delta.h] (class
    [LogitLossDelta] of difacto) and the properties of [Predict] and
    [CalcGrad].

    Conventions of the embedding.
    - In the calls [real_t] is interpreted in exact real arithmetic
      ([R]). The two per-row transforms are also given in floating
      point, with rounding, overflow to infinity, signed zeros and NaN,
      for the properties that depend on them.
    - [SArray] buffers and the raw arrays of a [dmlc::RowBlock] live in a
      store; a view or a pointer is a location of that store, so that two
      views of one buffer alias.
    - A [CHECK] that fails ends the call with [Fatal]; an access outside
      an array, which C++ leaves undefined, ends it with [Undef]. *)

From Stdlib Require Import Reals Lra ZArith.
From stdpp Require Import gmap list.

(** ** Outcomes of a call *)

Inductive result (A : Type) : Type :=
| Ok (a : A)
| Fatal
| Undef.
Arguments Ok {A} a.
Arguments Fatal {A}.
Arguments Undef {A}.

Definition rbind {A B} (r : result A) (k : A -> result B) : result B :=
  match r with
  | Ok a => k a
  | Fatal => Fatal
  | Undef => Undef
  end.

Definition rmap {A B} (f : A -> B) (r : result A) : result B :=
  rbind r (fun a => Ok (f a)).

(** Reading [a[i]] through a raw pointer or an unchecked [operator[]]. *)
Definition at_ {A} (a : list A) (i : nat) : result A :=
  match a !! i with
  | Some x => Ok x
  | None => Undef
  end.

(** ** The per-row transforms of [CalcGrad] *)

(** [typedef float real_t;], read as a real number. *)
Abbreviation real_t := R (only parsing).

Section Kernel.
#[local] Open Scope R_scope.

(** [real_t y = data.label[i] > 0 ? 1 : -1;] *)
Definition label_sign (l : real_t) : real_t :=
  if Rlt_dec 0 l then 1 else -1.

(** First loop: [p[i] = - y / (1 + std::exp(y * p[i]));] *)
Definition tau_step (l pi : real_t) : real_t :=
  let y := label_sign l in
  - y / (1 + exp (y * pi)).

(** Second loop: [real_t tau = - y * p[i]; p[i] = tau * (1 - tau);] *)
Definition curv_step (l pi : real_t) : real_t :=
  let y := label_sign l in
  let tau := - y * pi in
  tau * (1 - tau).

(** Both loops have the shape
    [for (size_t i = 0; i < p.size(); ++i) p[i] = f(data.label[i], p[i]);]
    with independent iterations; [label] is read with no bounds check. *)
Fixpoint label_loop (f : real_t -> real_t -> real_t)
         (label : list real_t) (i : nat) (p : list real_t)
  : result (list real_t) :=
  match p with
  | [] => Ok []
  | pi :: p' =>
      rbind (at_ label i) (fun l =>
      rmap (cons (f l pi)) (label_loop f label (S i) p'))
  end.


(** The curvature weight as the specification words it: [tau_i] is
    recomputed from the original prediction as in the first loop, and
    [p_i = tau_i * (1 - tau_i)]. *)
Definition spec_curv_weight (l x : real_t) : real_t :=
  let tau := tau_step l x in
  tau * (1 - tau).

End Kernel.

(** ** The per-row transforms in floating point *)

(** A value of [real_t] as a floating-point format has it: a finite
    number, given by its sign bit and its magnitude (a magnitude of 0 is
    one of the two zeros), an infinity, or a NaN. *)
Inductive fval : Type :=
| Num (neg : bool) (mag : R)
| Inf (neg : bool)
| NaN.

(** The format of [real_t]. [rnd] rounds a magnitude to the nearest
    value of the format, the exponent taken unbounded above; [fmax] is
    the largest finite value; [eps] is half the distance between two
    neighbours of the format in [[1/2, 1]]. For the single precision of
    [typedef float real_t;] these are rounding to nearest even on 24
    bits, [(2 - 2^-23) * 2^127] and [2^-25]. *)
Record format := Format {
  rnd : R -> R;
  fmax : R;
  eps : R
}.

(** What the properties below use of a binary format that rounds to
    nearest. Rounding is monotone and leaves the values of the format
    alone. 0, 1 and 1/4 are values of the format, and 1 is finite. The
    difference [1 - t] is exact for a value [t] of the format in
    [[1/2, 1]] (Sterbenz). Rounding moves a real of [[1/2, 1]] by at
    most [eps]. A real up to [1/4 + eps/2] rounds to at most 1/4: in
    single precision the successor of 1/4 is [1/4 + 2^-25], the midpoint
    [1/4 + 2^-26] is [1/4 + eps/2], and the tie goes to 1/4, whose
    significand is even. *)
Record nearest (F : format) : Prop := Nearest {
  rnd_mono : forall x y, (x <= y -> rnd F x <= rnd F y)%R;
  rnd_idem : forall x, rnd F (rnd F x) = rnd F x;
  rnd_0 : rnd F 0%R = 0%R;
  rnd_1 : rnd F 1%R = 1%R;
  rnd_quarter : rnd F (1 / 4)%R = (1 / 4)%R;
  fmax_1 : (1 <= fmax F)%R;
  rnd_sterbenz :
    forall t, rnd F t = t -> (1 / 2 <= t <= 1)%R ->
              rnd F (1 - t)%R = (1 - t)%R;
  eps_pos : (0 <= eps F)%R;
  rnd_eps : forall x, (1 / 2 <= x <= 1 -> rnd F x <= x + eps F)%R;
  rnd_tie : forall x, (x <= 1 / 4 + eps F / 2 -> rnd F x <= 1 / 4)%R
}.

Section Floating.
#[local] Open Scope R_scope.

Variable F : format.

(** The real number a sign bit and a magnitude stand for. *)
Definition value (neg : bool) (m : R) : R := if neg then - m else m.

Definition is_zero (x : R) : bool :=
  if Req_dec_T x 0 then true else false.

Definition is_neg (x : R) : bool :=
  if Rlt_dec x 0 then true else false.

(** The result of an operation whose exact result has sign [neg] and
    magnitude [x]: rounded, and an infinity if that exceeds the format.
    Every operation rounds to the format on its own: no excess
    precision, no contraction of a product and a sum. *)
Definition round (neg : bool) (x : R) : fval :=
  let m := rnd F x in
  if Rlt_dec (fmax F) m then Inf neg else Num neg m.

(** Unary minus. *)
Definition fneg (a : fval) : fval :=
  match a with
  | Num s m => Num (negb s) m
  | Inf s => Inf (negb s)
  | NaN => NaN
  end.

(** [a * b] *)
Definition fmul (a b : fval) : fval :=
  match a, b with
  | NaN, _ | _, NaN => NaN
  | Num s m, Num s' m' => round (xorb s s') (m * m')
  | Num s m, Inf s' => if is_zero m then NaN else Inf (xorb s s')
  | Inf s, Num s' m' => if is_zero m' then NaN else Inf (xorb s s')
  | Inf s, Inf s' => Inf (xorb s s')
  end.

(** [a / b] *)
Definition fdiv (a b : fval) : fval :=
  match a, b with
  | NaN, _ | _, NaN => NaN
  | Num s m, Num s' m' =>
      if is_zero m'
      then if is_zero m then NaN else Inf (xorb s s')
      else round (xorb s s') (m / m')
  | Num s m, Inf s' => Num (xorb s s') 0
  | Inf s, Num s' m' => Inf (xorb s s')
  | Inf s, Inf s' => NaN
  end.

(** [a + b]; an exact sum of zero is [+0] unless both terms are
    negative. *)
Definition fadd (a b : fval) : fval :=
  match a, b with
  | NaN, _ | _, NaN => NaN
  | Num s m, Num s' m' =>
      let v := value s m + value s' m' in
      if is_zero v then Num (s && s') 0
      else round (is_neg v) (Rabs v)
  | Num s m, Inf s' => Inf s'
  | Inf s, Num s' m' => Inf s
  | Inf s, Inf s' => if Bool.eqb s s' then Inf s else NaN
  end.

(** [a - b] *)
Definition fsub (a b : fval) : fval := fadd a (fneg b).

(** [std::exp(a)], taken to round the exponential as the arithmetic
    does: infinite above the format, [+0] at minus infinity. *)
Definition fexp (a : fval) : fval :=
  match a with
  | Num s m => round false (exp (value s m))
  | Inf false => Inf false
  | Inf true => Num false 0
  | NaN => NaN
  end.

(** [a > 0], false on a NaN. *)
Definition fpos (a : fval) : bool :=
  match a with
  | Num s m => if Rlt_dec 0 (value s m) then true else false
  | Inf s => negb s
  | NaN => false
  end.

(** The [int] 1 as a [real_t]. *)
Definition one : fval := Num false 1.

(** [real_t y = data.label[i] > 0 ? 1 : -1;] *)
Definition label_y (l : fval) : fval :=
  if fpos l then one else fneg one.

(** First loop: [p[i] = - y / (1 + std::exp(y * p[i]));] *)
Definition tau_step_f (l pi : fval) : fval :=
  let y := label_y l in
  fdiv (fneg y) (fadd one (fexp (fmul y pi))).

(** Second loop: [real_t tau = - y * p[i]; p[i] = tau * (1 - tau);] *)
Definition curv_step_f (l pi : fval) : fval :=
  let y := label_y l in
  let tau := fmul (fneg y) pi in
  fmul tau (fsub one tau).

End Floating.

(** The loops of [CalcGrad] over floating-point arrays: the shape of
    [label_loop]. *)
Fixpoint label_loop_f (f : fval -> fval -> fval)
         (label : list fval) (i : nat) (p : list fval)
  : result (list fval) :=
  match p with
  | [] => Ok []
  | pi :: p' =>
      rbind (at_ label i) (fun l =>
      rmap (cons (f l pi)) (label_loop_f f label (S i) p'))
  end.


(** A real number as a value of [real_t], when it needs no rounding. *)
Definition of_R (x : R) : fval := Num (is_neg x) (Rabs x).

(** The range of single precision with no rounding error: the exact
    arithmetic of [tau_step] and [curv_step], with overflow. *)
Definition unrounded : format :=
  Format (fun x => x) (IZR (2 ^ 128 - 2 ^ 104)) 0.


(** ** The store and the call monad *)

(** Buffers of [real_t] and buffers of integers ([int], [unsigned],
    [size_t]): a buffer has one element type, and an integer buffer holds
    values of its element type. *)
Record store := Store {
  reals : gmap positive (list R);
  ints : gmap positive (list Z)
}.

(** A call threads the store and ends with one of the three outcomes. *)
Definition M (A : Type) : Type := store -> result (A * store).

Definition ret {A} (a : A) : M A := fun s => Ok (a, s).

Definition bind {A B} (m : M A) (k : A -> M B) : M B :=
  fun s =>
    match m s with
    | Ok (a, s') => k a s'
    | Fatal => Fatal
    | Undef => Undef
    end.

(** A computation on contents that leaves the store alone. *)
Definition lift {A} (r : result A) : M A :=
  fun s => rmap (fun a => (a, s)) r.

Declare Scope res_scope.
Delimit Scope res_scope with res.
Notation "x <- m ;; k" := (rbind m (fun x => k))
  (at level 100, m at next level, k at level 200, right associativity)
  : res_scope.

Declare Scope call_scope.
Delimit Scope call_scope with call.
Notation "x <- m ;; k" := (bind m (fun x => k))
  (at level 100, m at next level, k at level 200, right associativity)
  : call_scope.
Notation "m ;; k" := (bind m (fun _ => k))
  (at level 100, k at level 200, right associativity) : call_scope.

(** [CHECK(b)] of dmlc/logging.h. *)
Definition CHECK (b : bool) : M unit :=
  fun s => if b then Ok (tt, s) else Fatal.

(** An [SArray<T>] is a view of a shared buffer: the location of the
    buffer, or [None] for the default-constructed empty array. A view keeps
    its buffer alive, so a location without a buffer reads as empty. The
    same representation serves the nullable raw pointers of a row block. *)
Abbreviation SArray := (option positive) (only parsing).

(** The contents a view gives access to. *)
Definition real_data (a : SArray) (s : store) : list R :=
  match a with
  | Some l => default [] (reals s !! l)
  | None => []
  end.

Definition int_data (a : SArray) (s : store) : list Z :=
  match a with
  | Some l => default [] (ints s !! l)
  | None => []
  end.

Definition read_real (a : SArray) : M (list R) :=
  fun s => Ok (real_data a s, s).

Definition read_int (a : SArray) : M (list Z) :=
  fun s => Ok (int_data a s, s).

(** Overwriting the elements of an existing buffer. *)
Definition write_real (a : SArray) (v : list R) : M unit :=
  fun s =>
    match a with
    | Some l => Ok (tt, Store (alter (fun _ => v) l (reals s)) (ints s))
    | None => Ok (tt, s)
    end.

Definition write_int (a : SArray) (v : list Z) : M unit :=
  fun s =>
    match a with
    | Some l => Ok (tt, Store (reals s) (alter (fun _ => v) l (ints s)))
    | None => Ok (tt, s)
    end.

(** A buffer the call allocates: a location no buffer of the store has. *)
Definition alloc_real (v : list R) : M positive :=
  fun s =>
    let l := fresh (dom (reals s)) in
    Ok (l, Store (<[l := v]> (reals s)) (ints s)).

Definition alloc_int (v : list Z) : M positive :=
  fun s =>
    let l := fresh (dom (ints s)) in
    Ok (l, Store (reals s) (<[l := v]> (ints s))).

(** The destructor of the last view of a buffer the call owns. *)
Definition free_real (l : positive) : M unit :=
  fun s => Ok (tt, Store (delete l (reals s)) (ints s)).

Definition free_int (l : positive) : M unit :=
  fun s => Ok (tt, Store (reals s) (delete l (ints s))).

(** [SArray<real_t> p; p.CopyFrom(src);] gives [p] a buffer of its own. *)
Definition CopyFrom_real (src : SArray) : M positive :=
  (v <- read_real src ;; alloc_real v)%call.

Definition CopyFrom_int (src : SArray) : M positive :=
  (v <- read_int src ;; alloc_int v)%call.

(** ** [dmlc::RowBlock<unsigned>] and the parameters *)

Module RowBlock.
(** [size_t size; const size_t* offset; const real_t* label;
    const unsigned* index; const real_t* value;] *)
Record t := Make {
  size : nat;
  offset : positive;
  label : option positive;
  index : positive;
  value : option positive
}.
End RowBlock.

(** [struct LogitLossDeltaParam], with the spelling of its fields; both
    are declared with range [[0, 1]], the first with default 0 and the
    second with default 1. *)
Record LogitLossDeltaParam := {
  compute_diag_hession : Z;
  compute_upper_diag_hession : Z
}.

(** ** The multiply primitive, [SpMV] of common/spmv.h *)

Module SpMV.
#[local] Open Scope res_scope.

(** Modelled from the spec: the position mapping of common/spmv.h, which
    is not among the sources. An absent (empty) mapping is the identity;
    otherwise entry [i] is the physical offset of coordinate [i], a
    negative entry marking the coordinate as unused. *)
Definition pos_at (pos : list Z) (i : nat) : result (option nat) :=
  match pos with
  | [] => Ok (Some i)
  | _ :: _ =>
      z <- at_ pos i ;;
      Ok (if (z <? 0)%Z then None else Some (Z.to_nat z))
  end.

(** Modelled from the spec: [offset[r]] and [offset[r+1]] delimit the
    index/value range of row [r] (first entry and number of entries). *)
Definition row_range (offs : list Z) (r : nat) : result (nat * nat) :=
  lo <- at_ offs r ;;
  hi <- at_ offs (S r) ;;
  Ok (Z.to_nat lo, (Z.to_nat hi - Z.to_nat lo)%nat).

(** Modelled from the spec: the value of entry [j], an absent value
    array meaning an implicit 1.0. *)
Definition entry_value (vals : option (list R)) (j : nat) : result R :=
  match vals with
  | None => Ok 1%R
  | Some v => at_ v j
  end.

(** Modelled from the spec: SpMV::Times on one row, the weighted sum of
    the input entries at the row's column indices, the input read
    through its mapping. *)
Fixpoint row_dot (idx : list Z) (vals : option (list R))
         (x : list R) (x_pos : list Z) (j n : nat) : result R :=
  match n with
  | O => Ok 0%R
  | S n' =>
      c <- at_ idx j ;;
      v <- entry_value vals j ;;
      k <- pos_at x_pos (Z.to_nat c) ;;
      rest <- row_dot idx vals x x_pos (S j) n' ;;
      match k with
      | None => Ok rest
      | Some k => xk <- at_ x k ;; Ok (v * xk + rest)%R
      end
  end.

(** Modelled from the spec: the contributions of SpMV::Times, one per
    row whose output position is in use. *)
Fixpoint times_updates (offs idx : list Z) (vals : option (list R))
         (x : list R) (x_pos y_pos : list Z) (r n : nat)
  : result (list (nat * R)) :=
  match n with
  | O => Ok []
  | S n' =>
      k <- pos_at y_pos r ;;
      u <- match k with
           | None => Ok []
           | Some k =>
               rg <- row_range offs r ;;
               d <- row_dot idx vals x x_pos (fst rg) (snd rg) ;;
               Ok [(k, d)]
           end ;;
      rest <- times_updates offs idx vals x x_pos y_pos (S r) n' ;;
      Ok (u ++ rest)
  end.

(** Modelled from the spec: SpMV::TransTimes on one row, every entry of
    the row sending its share of the row's input to the output position
    of the entry's column. *)
Fixpoint row_scatter (idx : list Z) (vals : option (list R))
         (y_pos : list Z) (xk : R) (j n : nat) : result (list (nat * R)) :=
  match n with
  | O => Ok []
  | S n' =>
      c <- at_ idx j ;;
      v <- entry_value vals j ;;
      k <- pos_at y_pos (Z.to_nat c) ;;
      rest <- row_scatter idx vals y_pos xk (S j) n' ;;
      Ok match k with
         | None => rest
         | Some k => (k, v * xk)%R :: rest
         end
  end.

(** Modelled from the spec: the contributions of SpMV::TransTimes, row
    by row, a row whose input position is unused contributing nothing. *)
Fixpoint trans_updates (offs idx : list Z) (vals : option (list R))
         (x : list R) (x_pos y_pos : list Z) (r n : nat)
  : result (list (nat * R)) :=
  match n with
  | O => Ok []
  | S n' =>
      k <- pos_at x_pos r ;;
      u <- match k with
           | None => Ok []
           | Some k =>
               xk <- at_ x k ;;
               rg <- row_range offs r ;;
               row_scatter idx vals y_pos xk (fst rg) (snd rg)
           end ;;
      rest <- trans_updates offs idx vals x x_pos y_pos (S r) n' ;;
      Ok (u ++ rest)
  end.

(** Modelled from the spec: the primitive always accumulates into its
    output, never overwrites: [y[k] += a] for each contribution. *)
Fixpoint accumulate (y : list R) (us : list (nat * R)) : result (list R) :=
  match us with
  | [] => Ok y
  | (k, a) :: us' =>
      yk <- at_ y k ;;
      accumulate (<[k := (yk + a)%R]> y) us'
  end.

#[local] Open Scope call_scope.

(** Modelled from the spec: what SpMV reads of a row block. *)
Definition block_data (D : RowBlock.t)
  : M (list Z * list Z * option (list R)) :=
  offs <- read_int (Some (RowBlock.offset D)) ;;
  idx <- read_int (Some (RowBlock.index D)) ;;
  vals <- match RowBlock.value D with
          | None => ret None
          | Some v => vs <- read_real (Some v) ;; ret (Some vs)
          end ;;
  ret (offs, idx, vals).

(** Modelled from the spec: [SpMV::Times(D, x, y, nthreads, x_pos, y_pos)]
    of common/spmv.h, [y += D * x]: reads [x] through [x_pos] and
    accumulates into [y] through [y_pos]. The result does not depend on
    [nthreads]. *)
Definition Times (D : RowBlock.t) (x y x_pos y_pos : SArray) : M unit :=
  d <- block_data D ;;
  xv <- read_real x ;;
  yv <- read_real y ;;
  xp <- read_int x_pos ;;
  yp <- read_int y_pos ;;
  us <- lift (times_updates (fst (fst d)) (snd (fst d)) (snd d)
                xv xp yp 0 (RowBlock.size D)) ;;
  yv' <- lift (accumulate yv us) ;;
  write_real y yv'.

(** Modelled from the spec: [SpMV::TransTimes(D, x, y, nthreads, x_pos,
    y_pos)] of common/spmv.h, [y += D^T * x]. *)
Definition TransTimes (D : RowBlock.t) (x y x_pos y_pos : SArray)
  : M unit :=
  d <- block_data D ;;
  xv <- read_real x ;;
  yv <- read_real y ;;
  xp <- read_int x_pos ;;
  yp <- read_int y_pos ;;
  us <- lift (trans_updates (fst (fst d)) (snd (fst d)) (snd d)
                xv xp yp 0 (RowBlock.size D)) ;;
  yv' <- lift (accumulate yv us) ;;
  write_real y yv'.

End SpMV.

(** ** [LogitLossDelta] *)

Section LogitLossDelta.
#[local] Open Scope call_scope.

(** [param_], set once by [Init]. *)
Variable param_ : LogitLossDeltaParam.

(** [CHECK_NOTNULL(ptr)] *)
Definition CHECK_NOTNULL (ptr : option positive) : M positive :=
  fun s =>
    match ptr with
    | Some l => Ok (l, s)
    | None => Fatal
    end.

(** [param[i]] of the [std::vector<SArray<char>>], read at the element
    type the code casts it to. *)
Definition param_at (param : list SArray) (i : nat) : M SArray :=
  lift (at_ param i).

(** The narrowing of a [size_t] to an [int] keeps the low 32 bits. *)
Definition to_int (z : Z) : Z :=
  ((z + 2147483648) mod 4294967296 - 2147483648)%Z.

(** [int psize = param.size();] *)
Definition psize_of (param : list SArray) : Z :=
  to_int (Z.of_nat (length param)).

(** [pred += X * delta_w] *)
Definition Predict (data : RowBlock.t) (param : list SArray)
           (pred : SArray) : M unit :=
  let psize := psize_of param in
  CHECK (1 <=? psize)%Z ;;
  CHECK (psize <=? 2)%Z ;;
  delta_w <- param_at param 0 ;;
  w_pos <- (if (psize =? 2)%Z then param_at param 1 else ret None) ;;
  SpMV.TransTimes data delta_w pred w_pos None.

(** The two [omp parallel for] loops over [p]: every iteration reads
    [data.label[i]] and rewrites [p[i]] alone. *)
Definition label_pass (f : R -> R -> R) (label p : positive) : M unit :=
  lab <- read_real (Some label) ;;
  pv <- read_real (Some p) ;;
  pv' <- lift (label_loop f lab 0 pv) ;;
  write_real (Some p) pv'.

Definition int_max : Z := 2147483647.

(** [if (h_pos[i] >= 0) ++h_pos[i];] on an [int]. *)
Definition shift_pos (z : Z) : result Z :=
  if (0 <=? z)%Z
  then if (z =? int_max)%Z then Undef else Ok (z + 1)%Z
  else Ok z.

Fixpoint shift_loop (h : list Z) : result (list Z) :=
  match h with
  | [] => Ok []
  | z :: h' =>
      (z' <- shift_pos z ;;
       rest <- shift_loop h' ;;
       Ok (z' :: rest))%res
  end.

(** [for (size_t i = 0; i < h_pos.size(); ++i) ...] *)
Definition shift_pass (h_pos : positive) : M unit :=
  hv <- read_int (Some h_pos) ;;
  hv' <- lift (shift_loop hv) ;;
  write_int (Some h_pos) hv'.

(** [xx_value[i] = data.value[i+start] * data.value[i+start];] for
    [i < n]. *)
Fixpoint square_loop (value : list R) (start i n : nat)
  : result (list R) :=
  match n with
  | O => Ok []
  | S n' =>
      (v <- at_ value (i + start) ;;
       rest <- square_loop value start (S i) n' ;;
       Ok ((v * v)%R :: rest))%res
  end.

(** [XX = data], with [XX.value = xx_value.data()] when [data.value] is
    not null. Returns [xx_value] and [XX]. A size [offset[size] - start]
    that wraps around is no size [resize] can serve. *)
Definition squared_block (data : RowBlock.t) : M (SArray * RowBlock.t) :=
  match RowBlock.value data with
  | None => ret (None, data)
  | Some value =>
      offs <- read_int (Some (RowBlock.offset data)) ;;
      start <- lift (at_ offs 0) ;;
      stop <- lift (at_ offs (RowBlock.size data)) ;;
      (if (stop <? start)%Z then lift Undef else ret tt) ;;
      vals <- read_real (Some value) ;;
      sq <- lift (square_loop vals (Z.to_nat start) 0
                    (Z.to_nat (stop - start))) ;;
      xx_value <- alloc_real sq ;;
      ret (Some xx_value,
           RowBlock.Make (RowBlock.size data) (RowBlock.offset data)
             (RowBlock.label data) (RowBlock.index data) (Some xx_value))
  end.

(** The destructor of [xx_value], which has a buffer only if it was
    resized. *)
Definition free_opt (a : SArray) : M unit :=
  match a with
  | Some l => free_real l
  | None => ret tt
  end.

(** The last statement of [CalcGrad]. *)
Definition hessian_step (psize : Z) (param : list SArray)
           (XX : RowBlock.t) (p h_pos : positive) (grad : SArray)
  : M unit :=
  if negb (compute_diag_hession param_ =? 0)%Z
  then SpMV.Times XX (Some p) grad None (Some h_pos)
  else
    CHECK (psize =? 3)%Z ;;
    delta <- param_at param 2 ;;
    ret tt.

Definition CalcGrad (data : RowBlock.t) (param : list SArray)
           (grad : SArray) : M unit :=
  let psize := psize_of param in
  CHECK (1 <=? psize)%Z ;;
  CHECK (psize <=? 3)%Z ;;
  (* p = ... *)
  param0 <- param_at param 0 ;;
  p <- CopyFrom_real param0 ;;
  label <- CHECK_NOTNULL (RowBlock.label data) ;;
  label_pass tau_step label p ;;
  (* grad = ... *)
  grad_pos <- (if (1 <? psize)%Z then param_at param 1 else ret None) ;;
  SpMV.Times data (Some p) grad None grad_pos ;;
  if (compute_diag_hession param_ =? 0)%Z
     && (compute_upper_diag_hession param_ =? 0)%Z
  then free_real p
  else
    (* h = ... *)
    h_pos <- CopyFrom_int grad_pos ;;
    shift_pass h_pos ;;
    (* compute X .* X *)
    xx <- squared_block data ;;
    (* p = tau * (1 - tau) *)
    label_pass curv_step label p ;;
    hessian_step psize param (snd xx) p h_pos grad ;;
    free_opt (fst xx) ;;
    free_int h_pos ;;
    free_real p.

End LogitLossDelta.

(** ** The pure reading of the calls

    What [Predict] and [CalcGrad] compute, on the contents of the buffers;
    the lemmas below relate the calls on the store to these functions. *)

Section Reading.
#[local] Open Scope res_scope.

(** Steps 1 and 2 of [CalcGrad]: [tau], and the output after the first
    multiply. *)
Definition first_order (size : nat) (offs idx : list Z)
           (vals : option (list R)) (lab pred : list R)
           (grad_pos : list Z) (g0 : list R) : result (list R * list R) :=
  tau <- label_loop tau_step lab 0 pred ;;
  us <- SpMV.times_updates offs idx vals tau [] grad_pos 0 size ;;
  g1 <- SpMV.accumulate g0 us ;;
  Ok (tau, g1).

(** The contents of [xx_value], if [data.value] is not null. *)
Definition squares (size : nat) (offs : list Z) (vals : option (list R))
  : result (option (list R)) :=
  match vals with
  | None => Ok None
  | Some v =>
      start <- at_ offs 0 ;;
      stop <- at_ offs size ;;
      if (stop <? start)%Z then Undef
      else
        sq <- square_loop v (Z.to_nat start) 0 (Z.to_nat (stop - start)) ;;
        Ok (Some sq)
  end.

(** The output buffer after [CalcGrad], from the contents of the buffers
    before it. *)
Definition grad_after (cfg : LogitLossDeltaParam) (psize : Z) (size : nat)
           (offs idx : list Z) (vals : option (list R)) (lab pred : list R)
           (grad_pos : list Z) (g0 : list R) : result (list R) :=
  fo <- first_order size offs idx vals lab pred grad_pos g0 ;;
  if (compute_diag_hession cfg =? 0)%Z
     && (compute_upper_diag_hession cfg =? 0)%Z
  then Ok (snd fo)
  else
    h <- shift_loop grad_pos ;;
    xx <- squares size offs vals ;;
    p <- label_loop curv_step lab 0 (fst fo) ;;
    if negb (compute_diag_hession cfg =? 0)%Z
    then
      us <- SpMV.times_updates offs idx xx p [] h 0 size ;;
      SpMV.accumulate (snd fo) us
    else if (psize =? 3)%Z then Ok (snd fo) else Fatal.

(** The store after a call whose only effect is the new content of the
    output. *)
Definition put_real (l : positive) (r : result (list R)) (s : store)
  : result (unit * store) :=
  rmap (fun v => (tt, Store (<[l := v]> (reals s)) (ints s))) r.

(** The value array of a block, as the store holds it. *)
Definition value_view (s : store) (D : RowBlock.t)
           (vals : option (list R)) : Prop :=
  match RowBlock.value D with
  | None => vals = None
  | Some vl => exists v, reals s !! vl = Some v /\ vals = Some v
  end.

(** The values [SpMV] reads for a block. *)
Definition block_values (D : RowBlock.t) (s : store) : option (list R) :=
  match RowBlock.value D with
  | None => None
  | Some vl => Some (real_data (Some vl) s)
  end.

(** [w_pos], as [Predict] takes it from the parameter list. *)
Definition w_pos_of (param : list SArray) : SArray :=
  if (psize_of param =? 2)%Z
  then default None (param !! 1%nat) else None.

(** [grad_pos], as [CalcGrad] takes it from the parameter list. *)
Definition grad_pos_of (param : list SArray) : SArray :=
  if (1 <? psize_of param)%Z
  then default None (param !! 1%nat) else None.

(** The two stores agree on every buffer but the one [out] views. *)
Definition same_but (out : SArray) (s s' : store) : Prop :=
  ints s' = ints s /\
  forall l, out <> Some l -> reals s' !! l = reals s !! l.

(** Slot [k] of the output receives the gradient of some row. *)
Definition gradient_slot (grad_pos : list Z) (size k : nat) : Prop :=
  exists r, (r < size)%nat /\ SpMV.pos_at grad_pos r = Ok (Some k).

(** Slot [k] of the output is where [h_pos] sends the Hessian of some
    row. *)
Definition hessian_slot (grad_pos : list Z) (size k : nat) : Prop :=
  exists h r, shift_loop grad_pos = Ok h /\ (r < size)%nat /\
              SpMV.pos_at h r = Ok (Some k).

(** [delta_w / 2], entry by entry, and the contributions it gives. *)
Definition half (x : R) : R := (x / 2)%R.

Definition halve (us : list (nat * R)) : list (nat * R) :=
  map (fun u => (fst u, half (snd u))) us.

(** The store in which the buffer [dw] holds half of each entry. *)
Definition halved (dw : positive) (s : store) : store :=
  Store (alter (map half) dw (reals s)) (ints s).

(** The logistic function, and the 0/1 target a label stands for. *)
Definition sigmoid (x : R) : R := (/ (1 + exp (- x)))%R.

Definition target (l : R) : R := if Rlt_dec 0 l then 1%R else 0%R.

(** What the loop over [h_pos] leaves in an entry, short of overflow. *)
Definition shifted (z : Z) : Z := if (0 <=? z)%Z then (z + 1)%Z else z.

(** The output buffer after a call that takes the path of the exact
    diagonal Hessian: the gradient through [grad_pos], then the Hessian
    through [h_pos]. Neither the flags nor [psize] occur. *)
Definition diag_after (size : nat) (offs idx : list Z)
           (vals : option (list R)) (lab pred : list R)
           (grad_pos : list Z) (g0 : list R) : result (list R) :=
  fo <- first_order size offs idx vals lab pred grad_pos g0 ;;
  h <- shift_loop grad_pos ;;
  xx <- squares size offs vals ;;
  p <- label_loop curv_step lab 0 (fst fo) ;;
  us <- SpMV.times_updates offs idx xx p [] h 0 size ;;
  SpMV.accumulate (snd fo) us.

(** [offset[0]] and [offset[size]] delimit a range of the value array,
    when there is one: the loop that fills [xx_value] stays in bounds. *)
Definition value_range (size : nat) (offs : list Z)
           (vals : option (list R)) : Prop :=
  match vals with
  | None => True
  | Some v =>
      exists start stop,
        offs !! 0%nat = Some start /\ offs !! size = Some stop /\
        (0 <= start <= stop)%Z /\ (Z.to_nat stop <= length v)%nat
  end.

(** An action that fails no [CHECK]. *)
Definition never_fatal {A} (m : M A) : Prop := forall s, m s <> Fatal.

(** Both flags off: the first-order call. *)
Definition cfg_first_order : LogitLossDeltaParam :=
  {| compute_diag_hession := 0; compute_upper_diag_hession := 0 |}.

End Reading.

(** ** The end-to-end scenario

    A block of two rows and two columns, all four values 1. Real buffers:
    1 the values, 2 the labels, 3 [pred], 4 [delta_w], 5 the output.
    Integer buffers: 1 the offsets, 2 the indices, 3 a gradient position
    mapping that leaves room for the Hessian slots. *)

Section ScenarioData.
#[local] Open Scope R_scope.

Definition scen_reals (lab : list R) : gmap positive (list R) :=
  <[1%positive := [1; 1; 1; 1]]>
  (<[2%positive := lab]>
  (<[3%positive := [0; 0]]>
  (<[4%positive := [0; 0]]>
  (<[5%positive := [0; 0; 0; 0]]> ∅)))).

Definition scen_ints : gmap positive (list Z) :=
  <[1%positive := [0; 2; 4]%Z]>
  (<[2%positive := [0; 1; 0; 1]%Z]>
  (<[3%positive := [0; 2]%Z]> ∅)).

Definition scen_store (lab : list R) : store :=
  Store (scen_reals lab) scen_ints.

Definition scen_block : RowBlock.t :=
  RowBlock.Make 2 1%positive (Some 2%positive) 2%positive (Some 1%positive).

(** The store of the scenario once the output holds [grad]. *)
Definition scen_done (lab grad : list R) : store :=
  Store (<[5%positive := grad]> (scen_reals lab)) scen_ints.

(** [compute_diag_hession=1] on top of the default
    [compute_upper_diag_hession=1]; and the default alone. *)
Definition cfg_diag : LogitLossDeltaParam :=
  {| compute_diag_hession := 1; compute_upper_diag_hession := 1 |}.

Definition cfg_upper : LogitLossDeltaParam :=
  {| compute_diag_hession := 0; compute_upper_diag_hession := 1 |}.

(** The store of the scenario with [delta_w] and [pred] replaced. *)
Definition scen_pred (dw pred : list R) : store :=
  Store (<[3%positive := pred]> (<[4%positive := dw]> (scen_reals [1; -1])))
    scen_ints.

End ScenarioData.

(** * Properties *)

(** ** Facts about the per-row transforms *)

Section KernelFacts.
#[local] Open Scope R_scope.

Lemma label_sign_cases l :
  (0 < l /\ label_sign l = 1) \/ (l <= 0 /\ label_sign l = -1).
Proof.
  unfold label_sign. destruct (Rlt_dec 0 l); [left | right]; split; lra.
Qed.

Lemma label_sign_sq l : label_sign l * label_sign l = 1.
Proof. destruct (label_sign_cases l) as [[_ ->] | [_ ->]]; lra. Qed.

Lemma denom_pos z : 1 < 1 + exp z.
Proof. pose proof (exp_pos z). lra. Qed.

(** The logistic weight [1 / (1 + exp z)] lies strictly between 0 and 1. *)
Lemma logistic_bounds z : 0 < / (1 + exp z) < 1.
Proof.
  pose proof (denom_pos z) as Hd. split.
  - apply Rinv_0_lt_compat. lra.
  - rewrite <- Rinv_1. apply Rinv_lt_contravar; lra.
Qed.

Lemma tau_step_eq l x :
  tau_step l x = - label_sign l * / (1 + exp (label_sign l * x)).
Proof. unfold tau_step, Rdiv. reflexivity. Qed.

(** What the second loop leaves in [p[i]] when it runs on the output of
    the first: the variance of the logistic weight. *)
Lemma curv_after_tau l x :
  curv_step l (tau_step l x) =
  / (1 + exp (label_sign l * x)) * (1 - / (1 + exp (label_sign l * x))).
Proof.
  unfold curv_step. rewrite tau_step_eq.
  set (s := / (1 + exp (label_sign l * x))).
  pose proof (label_sign_sq l) as Hy.
  replace (- label_sign l * (- label_sign l * s))
    with ((label_sign l * label_sign l) * s) by ring.
  rewrite Hy. ring.
Qed.

Lemma label_loop_length f label i p q :
  label_loop f label i p = Ok q -> length q = length p.
Proof.
  revert i q. induction p as [|pi p IH]; intros i q; simpl.
  - intros [= <-]. reflexivity.
  - unfold at_. destruct (label !! i); simpl; try discriminate.
    destruct (label_loop f label (S i) p) eqn:E; simpl; try discriminate.
    intros [= <-]. simpl. f_equal. eauto.
Qed.

Lemma label_loop_lookup f label i p q k x :
  label_loop f label i p = Ok q ->
  p !! k = Some x ->
  exists l, label !! (i + k)%nat = Some l /\ q !! k = Some (f l x).
Proof.
  revert i q k. induction p as [|pi p IH]; intros i q k; simpl.
  - intros _ Hk. discriminate.
  - unfold at_. destruct (label !! i) as [l|] eqn:El; simpl; try discriminate.
    destruct (label_loop f label (S i) p) as [q'| |] eqn:E; simpl;
      try discriminate.
    intros [= <-] Hk. destruct k as [|k]; simpl in *.
    + injection Hk as ->. exists l. rewrite Nat.add_0_r. auto.
    + destruct (IH _ _ _ E Hk) as (l' & Hl' & Hq).
      exists l'. split; [|exact Hq].
      replace (i + S k)%nat with (S i + k)%nat by lia. exact Hl'.
Qed.

Lemma label_loop_defined f label i p :
  (i + length p <= length label)%nat ->
  exists q, label_loop f label i p = Ok q.
Proof.
  revert i. induction p as [|pi p IH]; intros i Hlen; simpl in *.
  - eauto.
  - unfold at_. destruct (lookup_lt_is_Some_2 label i) as [l ->]; [lia|].
    simpl. destruct (IH (S i)) as [q ->]; [lia|]. simpl. eauto.
Qed.

End KernelFacts.

(** ** The number of parameters *)

Section Psize.

Lemma psize_small param :
  (Z.of_nat (length param) < 2147483648)%Z ->
  psize_of param = Z.of_nat (length param).
Proof.
  intros H. unfold psize_of, to_int.
  rewrite Z.mod_small by lia. lia.
Qed.

(** A parameter the checked [psize] vouches for is in the list. *)
Lemma psize_lookup param i :
  (Z.of_nat i < psize_of param)%Z -> (i < 3)%nat ->
  exists a : SArray, param !! i = Some a.
Proof.
  intros H Hi. apply lookup_lt_is_Some_2.
  destruct (Nat.lt_ge_cases i (length param)) as [?|Hge]; [assumption|].
  rewrite psize_small in H by lia. lia.
Qed.

End Psize.

(** ** Running a call: inversion lemmas *)

Section Runs.

Lemma bind_Ok {A B} (m : M A) (k : A -> M B) s r :
  bind m k s = Ok r <-> exists a s', m s = Ok (a, s') /\ k a s' = Ok r.
Proof.
  unfold bind. split.
  - destruct (m s) as [[a s']| |]; try discriminate. eauto.
  - intros (a & s' & -> & H). exact H.
Qed.

Lemma lift_Ok {A} (r : result A) s a s' :
  lift r s = Ok (a, s') <-> r = Ok a /\ s' = s.
Proof.
  unfold lift, rmap, rbind. split.
  - destruct r; intros [= <- <-] || discriminate. auto.
  - intros [-> ->]. reflexivity.
Qed.

Lemma CHECK_Ok b s u s' : CHECK b s = Ok (u, s') <-> b = true /\ s' = s.
Proof.
  unfold CHECK. destruct b; split.
  - intros [= <- <-]. auto.
  - intros [_ ->]. destruct u. reflexivity.
  - discriminate.
  - intros [? _]. discriminate.
Qed.

Lemma CHECK_NOTNULL_Ok ptr s l s' :
  CHECK_NOTNULL ptr s = Ok (l, s') <-> ptr = Some l /\ s' = s.
Proof.
  unfold CHECK_NOTNULL. destruct ptr; split.
  - intros [= <- <-]. auto.
  - intros [[= ->] ->]. reflexivity.
  - discriminate.
  - intros [? _]. discriminate.
Qed.

Lemma ret_Ok {A} (a : A) s b s' : ret a s = Ok (b, s') -> a = b /\ s = s'.
Proof. intros [= <- <-]. auto. Qed.

Lemma read_real_Ok a s v s' :
  read_real a s = Ok (v, s') -> real_data a s = v /\ s = s'.
Proof. intros [= <- <-]. auto. Qed.

Lemma read_int_Ok a s v s' :
  read_int a s = Ok (v, s') -> int_data a s = v /\ s = s'.
Proof. intros [= <- <-]. auto. Qed.

Lemma alloc_real_Ok v s l s' :
  alloc_real v s = Ok (l, s') ->
  fresh (dom (reals s)) = l /\
  Store (<[fresh (dom (reals s)) := v]> (reals s)) (ints s) = s'.
Proof. intros [= <- <-]. auto. Qed.

Lemma alloc_int_Ok v s l s' :
  alloc_int v s = Ok (l, s') ->
  fresh (dom (ints s)) = l /\
  Store (reals s) (<[fresh (dom (ints s)) := v]> (ints s)) = s'.
Proof. intros [= <- <-]. auto. Qed.

Lemma free_real_Ok l s u s' :
  free_real l s = Ok (u, s') -> s' = Store (delete l (reals s)) (ints s).
Proof. intros [= _ <-]. reflexivity. Qed.

Lemma free_int_Ok l s u s' :
  free_int l s = Ok (u, s') -> s' = Store (reals s) (delete l (ints s)).
Proof. intros [= _ <-]. reflexivity. Qed.

End Runs.

(** Decomposes a hypothesis stating that a run returned. *)
Ltac run_inv :=
  repeat match goal with
  | H : Undef = Ok _ |- _ => discriminate H
  | H : Fatal = Ok _ |- _ => discriminate H
  | H : bind _ _ _ = Ok _ |- _ =>
      let a := fresh "a" in
      let s := fresh "s" in
      let H1 := fresh "Hrun" in
      apply bind_Ok in H; destruct H as (a & s & H1 & H)
  | H : lift _ _ = Ok _ |- _ =>
      let E := fresh "Epure" in
      apply lift_Ok in H; destruct H as [E ->]
  | H : CHECK _ _ = Ok _ |- _ =>
      let E := fresh "Echk" in
      apply CHECK_Ok in H; destruct H as [E ->]
  | H : CHECK_NOTNULL _ _ = Ok _ |- _ =>
      let E := fresh "Eptr" in
      apply CHECK_NOTNULL_Ok in H; destruct H as [E ->]
  | H : param_at _ _ _ = Ok _ |- _ => unfold param_at in H
  | H : ret _ _ = Ok _ |- _ => apply ret_Ok in H; destruct H as [<- <-]
  | H : read_real _ _ = Ok _ |- _ =>
      apply read_real_Ok in H; destruct H as [<- <-]
  | H : read_int _ _ = Ok _ |- _ =>
      apply read_int_Ok in H; destruct H as [<- <-]
  | H : alloc_real _ _ = Ok _ |- _ =>
      apply alloc_real_Ok in H; destruct H as [<- <-]
  | H : alloc_int _ _ = Ok _ |- _ =>
      apply alloc_int_Ok in H; destruct H as [<- <-]
  | H : free_real _ _ = Ok _ |- _ => apply free_real_Ok in H; subst
  | H : free_int _ _ = Ok _ |- _ => apply free_int_Ok in H; subst
  | H : CopyFrom_real _ _ = Ok _ |- _ => unfold CopyFrom_real in H
  | H : CopyFrom_int _ _ = Ok _ |- _ => unfold CopyFrom_int in H
  end.

(** ** Frame properties *)

Section Frame.

Lemma same_but_refl out s : same_but out s s.
Proof. split; auto. Qed.

Lemma write_real_frame out v s u s' :
  write_real out v s = Ok (u, s') -> same_but out s s'.
Proof.
  unfold write_real. destruct out as [l|]; intros [= _ <-].
  - split; [reflexivity|]. simpl. intros l' Hl.
    apply lookup_alter_ne. congruence.
  - apply same_but_refl.
Qed.

Lemma Times_frame D x y xp yp s u s' :
  SpMV.Times D x y xp yp s = Ok (u, s') -> same_but y s s'.
Proof.
  unfold SpMV.Times, SpMV.block_data. intros H.
  destruct (RowBlock.value D); run_inv; eapply write_real_frame; eauto.
Qed.

Lemma TransTimes_frame D x y xp yp s u s' :
  SpMV.TransTimes D x y xp yp s = Ok (u, s') -> same_but y s s'.
Proof.
  unfold SpMV.TransTimes, SpMV.block_data. intros H.
  destruct (RowBlock.value D); run_inv; eapply write_real_frame; eauto.
Qed.

Lemma Predict_frame D param pred s u s' :
  Predict D param pred s = Ok (u, s') -> same_but pred s s'.
Proof.
  unfold Predict. intros H.
  destruct (psize_of param =? 2)%Z; run_inv;
    eapply TransTimes_frame; eauto.
Qed.

End Frame.

(** Rewrites the lookups of inserted, altered and deleted maps, case by
    case. *)
Ltac map_lookup :=
  repeat first
    [ rewrite lookup_delete
    | rewrite lookup_alter
    | rewrite lookup_insert
    | case_decide; subst; simpl ].

(** ** The frame of [CalcGrad] *)

Section FrameCalc.

Lemma fresh_lookup {A} (m : gmap positive A) : m !! fresh (dom m) = None.
Proof. apply not_elem_of_dom, is_fresh. Qed.

Lemma label_pass_effect f ll pl s u s' :
  label_pass f ll pl s = Ok (u, s') ->
  ints s' = ints s /\ forall l, l <> pl -> reals s' !! l = reals s !! l.
Proof.
  unfold label_pass. intros H. run_inv.
  apply write_real_frame in H as [Hi Hr]. split; [exact Hi|].
  intros l Hl. apply Hr. congruence.
Qed.

Lemma squared_block_effect D s xx s' :
  squared_block D s = Ok (xx, s') ->
  ints s' = ints s /\
  match fst xx with
  | None => reals s' = reals s
  | Some xl =>
      reals s !! xl = None /\
      forall l, l <> xl -> reals s' !! l = reals s !! l
  end.
Proof.
  unfold squared_block. destruct (RowBlock.value D) as [vl|]; intros H.
  - run_inv. destruct (_ <? _)%Z; run_inv. simpl. split; [reflexivity|].
    split; [apply fresh_lookup|].
    intros l Hl. apply lookup_insert_ne. congruence.
  - run_inv. simpl. auto.
Qed.

Lemma hessian_step_frame cfg psize param XX p h grad s u s' :
  hessian_step cfg psize param XX p h grad s = Ok (u, s') ->
  same_but grad s s'.
Proof.
  unfold hessian_step. destruct (negb _); intros H.
  - eapply Times_frame; eauto.
  - run_inv. apply same_but_refl.
Qed.

Lemma CalcGrad_frame cfg D param grad s u s' :
  CalcGrad cfg D param grad s = Ok (u, s') -> same_but grad s s'.
Proof.
  unfold CalcGrad. intros H.
  run_inv.
  pose proof (fresh_lookup (reals s)) as Hp.
  set (pl := fresh (dom (reals s))) in *.
  apply label_pass_effect in Hrun4 as [Hi5 Hr5]. simpl in *.
  assert (s6 = s5) as ->.
  { destruct (1 <? psize_of param)%Z; run_inv; reflexivity. }
  clear Hrun5.
  apply Times_frame in Hrun6 as [Hi7 Hr7].
  assert (Hs7 : forall l, grad <> Some l -> l <> pl ->
                          reals s7 !! l = reals s !! l).
  { intros l Hl Hlp. rewrite Hr7, Hr5 by assumption.
    apply lookup_insert_ne. congruence. }
  destruct (_ && _).
  - run_inv. split; simpl; [congruence|].
    intros l Hl. map_lookup; [congruence | auto].
  - apply bind_Ok in H as (hl & sh & Hh & H).
    apply bind_Ok in H as (? & sh' & Hsh & H).
    apply bind_Ok in H as ([xx XX] & sx & Hx & H).
    apply bind_Ok in H as (? & sc & Hc & H).
    apply bind_Ok in H as (? & sd & Hd & H).
    apply bind_Ok in H as (? & sf & Hf & H).
    assert (Hi' : delete hl (ints sh') = ints s7 /\ reals sh' = reals s7).
    { unfold shift_pass in Hsh. run_inv.
      unfold write_int in Hsh. injection Hsh as _ <-. simpl.
      rewrite delete_alter_eq, delete_insert_eq.
      split; [apply delete_id, fresh_lookup | reflexivity]. }
    destruct Hi' as [Hi' Hr'].
    apply squared_block_effect in Hx as [Hix Hx]. simpl in Hx.
    apply label_pass_effect in Hc as [Hic Hrc].
    apply hessian_step_frame in Hd as [Hid Hrd]. simpl in Hf.
    destruct xx as [xl|]; simpl in Hf; run_inv; simpl in *.
    + destruct Hx as [Hx Hrx]. split; simpl.
      * rewrite Hid, Hic, Hix, Hi'. congruence.
      * intros l Hl. map_lookup; [congruence| |].
        -- rewrite Hr' in Hx. rewrite <- Hx. apply Hs7; auto.
        -- rewrite Hrd, Hrc, Hrx, Hr' by auto. apply Hs7; auto.
    + split; simpl.
      * rewrite Hid, Hic, Hix, Hi'. congruence.
      * intros l Hl. map_lookup; [congruence|].
        rewrite Hrd, Hrc, Hx, Hr' by auto. apply Hs7; auto.
Qed.
End FrameCalc.

(** ** Running a call forwards

    On live buffers, with an output that is neither the labels nor the
    values, [CalcGrad] is its pure reading. *)

Section Forward.
#[local] Open Scope res_scope.

Lemma bind_eq {A B} (m : M A) (k : A -> M B) s :
  bind m k s =
  match m s with
  | Ok (a, s') => k a s'
  | Fatal => Fatal
  | Undef => Undef
  end.
Proof. reflexivity. Qed.

Lemma alter_present {A} (m : gmap positive A) l x v :
  m !! l = Some x -> alter (fun _ => v) l m = <[l := v]> m.
Proof.
  intros H. apply map_eq. intros i.
  rewrite lookup_alter, lookup_insert.
  case_decide; subst; [rewrite H|]; reflexivity.
Qed.

Lemma Times_run D x y xp yp s :
  SpMV.Times D x y xp yp s =
  match
    (us <- SpMV.times_updates
             (int_data (Some (RowBlock.offset D)) s)
             (int_data (Some (RowBlock.index D)) s)
             (match RowBlock.value D with
              | None => None
              | Some vl => Some (real_data (Some vl) s)
              end)
             (real_data x s) (int_data xp s) (int_data yp s)
             0 (RowBlock.size D) ;;
     SpMV.accumulate (real_data y s) us)
  with
  | Ok v => write_real y v s
  | Fatal => Fatal
  | Undef => Undef
  end.
Proof.
  unfold SpMV.Times, SpMV.block_data.
  destruct (RowBlock.value D); simpl; unfold bind, lift, read_real,
    read_int, ret, rmap, rbind; simpl;
    destruct (SpMV.times_updates _ _ _ _ _ _ _ _); try reflexivity;
    destruct (SpMV.accumulate _ _); reflexivity.
Qed.

Lemma run_eq (r r' : gmap positive (list R)) (i i' : gmap positive (list Z)) :
  r = r' -> i = i' ->
  @Ok (unit * store) (tt, Store r i) = Ok (tt, Store r' i').
Proof. intros -> ->. reflexivity. Qed.

Lemma put_real_Ok l v s :
  put_real l (Ok v) s = Ok (tt, Store (<[l := v]> (reals s)) (ints s)).
Proof. reflexivity. Qed.

Lemma Times_live D xl g xp yp s offs idx vals xv g0 :
  ints s !! RowBlock.offset D = Some offs ->
  ints s !! RowBlock.index D = Some idx ->
  value_view s D vals ->
  reals s !! xl = Some xv ->
  reals s !! g = Some g0 ->
  SpMV.Times D (Some xl) (Some g) xp yp s =
  put_real g
    (us <- SpMV.times_updates offs idx vals xv (int_data xp s)
             (int_data yp s) 0 (RowBlock.size D) ;;
     SpMV.accumulate g0 us) s.
Proof.
  intros Hoffs Hidx Hval Hx Hg. rewrite Times_run.
  unfold int_data at 1 2, real_data. rewrite Hoffs, Hidx, Hx, Hg. simpl.
  replace (match RowBlock.value D with
           | Some vl => Some (default [] (reals s !! vl))
           | None => None
           end) with vals.
  2:{ unfold value_view in Hval. destruct (RowBlock.value D).
      - destruct Hval as (v & -> & ->). reflexivity.
      - auto. }
  destruct (SpMV.times_updates _ _ _ _ _ _ _ _); try reflexivity. simpl.
  destruct (SpMV.accumulate _ _); try reflexivity. simpl.
  unfold put_real. simpl. erewrite alter_present by eauto. reflexivity.
Qed.

Lemma label_pass_run f ll pl s lab pv :
  reals s !! ll = Some lab ->
  reals s !! pl = Some pv ->
  label_pass f ll pl s = put_real pl (label_loop f lab 0 pv) s.
Proof.
  intros Hl Hp. unfold label_pass, bind, read_real, lift, real_data.
  simpl. rewrite Hl, Hp. simpl.
  destruct (label_loop f lab 0 pv); try reflexivity. simpl.
  unfold put_real. simpl. erewrite alter_present by eauto. reflexivity.
Qed.

Lemma shift_pass_run hl s v :
  ints s !! hl = Some v ->
  shift_pass hl s =
  rmap (fun h => (tt, Store (reals s) (<[hl := h]> (ints s))))
    (shift_loop v).
Proof.
  intros Hv. unfold shift_pass, bind, read_int, lift, int_data.
  simpl. rewrite Hv. simpl.
  destruct (shift_loop v); try reflexivity. simpl.
  erewrite alter_present by eauto. reflexivity.
Qed.

Lemma squared_block_run D s offs vals :
  ints s !! RowBlock.offset D = Some offs ->
  value_view s D vals ->
  squared_block D s =
  match squares (RowBlock.size D) offs vals with
  | Ok None => Ok ((None, D), s)
  | Ok (Some sq) =>
      let xl := fresh (dom (reals s)) in
      Ok ((Some xl,
           RowBlock.Make (RowBlock.size D) (RowBlock.offset D)
             (RowBlock.label D) (RowBlock.index D) (Some xl)),
          Store (<[xl := sq]> (reals s)) (ints s))
  | Fatal => Fatal
  | Undef => Undef
  end.
Proof.
  intros Hoffs Hval. unfold squared_block, value_view in *.
  destruct (RowBlock.value D) as [vl|].
  - destruct Hval as (v & Hv & ->). unfold squares.
    unfold bind, read_int, read_real, lift, int_data, real_data. simpl.
    rewrite Hoffs. simpl.
    destruct (at_ offs 0) as [start| |]; simpl; try reflexivity.
    destruct (at_ offs (RowBlock.size D)) as [stop| |]; simpl;
      try reflexivity.
    destruct (stop <? start)%Z; simpl; try reflexivity.
    rewrite Hv. simpl.
    destruct (square_loop _ _ _ _); reflexivity.
  - subst vals. reflexivity.
Qed.

Lemma squares_None size offs vals :
  squares size offs vals = Ok None -> vals = None.
Proof.
  unfold squares. destruct vals as [v|]; [|reflexivity].
  destruct (at_ offs 0) as [start| |]; simpl; try discriminate.
  destruct (at_ offs size) as [stop| |]; simpl; try discriminate.
  destruct (stop <? start)%Z; try discriminate.
  destruct (square_loop _ _ _ _); simpl; discriminate.
Qed.

Lemma upper_path_run param s :
  (CHECK (psize_of param =? 3)%Z ;;
   param_at param 2 ;; ret tt)%call s =
  if (psize_of param =? 3)%Z then Ok (tt, s) else Fatal.
Proof.
  unfold bind, CHECK.
  destruct (psize_of param =? 3)%Z eqn:E; [|reflexivity].
  apply Z.eqb_eq in E.
  destruct (psize_lookup param 2) as [x Hx]; [lia | lia |].
  unfold param_at, at_, lift. rewrite Hx. reflexivity.
Qed.

Lemma CalcGrad_run cfg D param g s a0 ll lab offs idx vals g0 :
  (1 <= psize_of param <= 3)%Z ->
  param !! 0%nat = Some a0 ->
  ints s !! RowBlock.offset D = Some offs ->
  ints s !! RowBlock.index D = Some idx ->
  RowBlock.label D = Some ll ->
  reals s !! ll = Some lab ->
  ll <> g ->
  RowBlock.value D <> Some g ->
  value_view s D vals ->
  reals s !! g = Some g0 ->
  CalcGrad cfg D param (Some g) s =
  put_real g
    (grad_after cfg (psize_of param) (RowBlock.size D)
       offs idx vals lab (real_data a0 s)
       (int_data (grad_pos_of param) s) g0) s.
Proof.
  intros Hlen Hp0 Hoffs Hidx Hll Hlab Hllg Hvg Hval Hg.
  unfold CalcGrad.
  rewrite bind_eq. unfold CHECK at 1.
  replace (1 <=? psize_of param)%Z with true
    by (symmetry; apply Z.leb_le; lia).
  rewrite bind_eq. unfold CHECK at 1.
  replace (psize_of param <=? 3)%Z with true
    by (symmetry; apply Z.leb_le; lia).
  rewrite bind_eq. unfold param_at at 1, at_. rewrite Hp0. simpl.
  rewrite bind_eq. unfold CopyFrom_real, alloc_real, read_real. simpl.
  pose proof (fresh_lookup (reals s)) as Hp.
  remember (fresh (dom (reals s))) as pl eqn:Epl. clear Epl.
  assert (Hllp : ll <> pl) by congruence.
  assert (Hgp : g <> pl) by congruence.
  rewrite bind_eq, Hll. simpl.
  rewrite bind_eq.
  rewrite (label_pass_run _ _ _ _ lab (real_data a0 s))
    by (simpl; map_lookup; congruence).
  unfold grad_after, first_order.
  destruct (label_loop tau_step lab 0 (real_data a0 s)) as [tau| |];
    try reflexivity.
  cbn [rbind]. rewrite put_real_Ok. simpl reals. simpl ints.
  rewrite insert_insert_eq.
  unfold grad_pos_of.
  set (gp := if (1 <? psize_of param)%Z
             then default None (param !! 1%nat) else None).
  assert (Hgpv : forall s1,
             (if (1 <? psize_of param)%Z
              then param_at param 1 else ret None) s1 = Ok (gp, s1)).
  { intros s1. subst gp. destruct (1 <? psize_of param)%Z eqn:E.
    - apply Z.ltb_lt in E.
      destruct (psize_lookup param 1) as [x Hx]; [lia | lia |].
      unfold param_at, at_, lift. rewrite Hx. reflexivity.
    - reflexivity. }
  rewrite bind_eq, Hgpv. clear Hgpv.
  assert (Hval1 : forall m i, (forall l x, l <> g -> reals s !! l = Some x ->
                                 m !! l = Some x) ->
                              value_view (Store m i) D vals).
  { intros m i Hm. unfold value_view in *.
    destruct (RowBlock.value D) as [vl|]; [|exact Hval].
    destruct Hval as (v & Hv & ->). exists v. split; [|reflexivity].
    apply Hm; [congruence | exact Hv]. }
  rewrite bind_eq.
  rewrite (Times_live _ _ _ _ _ _ offs idx vals tau g0);
    try (simpl; map_lookup; congruence).
  2:{ apply Hval1. intros l x Hlg Hl. map_lookup; congruence. }
  change (int_data None _) with (@nil Z).
  replace (int_data gp {| reals := <[pl:=tau]> (reals s); ints := ints s |})
    with (int_data gp s) by (destruct gp; reflexivity).
  destruct (SpMV.times_updates offs idx vals tau [] (int_data gp s) 0
              (RowBlock.size D)) as [us| |]; try reflexivity.
  cbn [rbind].
  destruct (SpMV.accumulate g0 us) as [g1| |]; try reflexivity.
  cbn [rbind rmap put_real fst snd reals ints].
  destruct (_ && _).
  { unfold free_real. cbn [reals ints].
    rewrite delete_insert_ne, delete_insert_eq, delete_id by auto.
    reflexivity. }
  rewrite bind_eq. unfold CopyFrom_int, alloc_int, read_int.
  cbn [bind reals ints].
  pose proof (fresh_lookup (ints s)) as Hh.
  remember (fresh (dom (ints s))) as hl eqn:Ehl. clear Ehl.
  replace (int_data gp
             {| reals := <[g:=g1]> (<[pl:=tau]> (reals s)); ints := ints s |})
    with (int_data gp s) by (destruct gp; reflexivity).
  rewrite bind_eq.
  rewrite (shift_pass_run _ _ (int_data gp s))
    by (cbn [ints]; apply lookup_insert_eq).
  destruct (shift_loop (int_data gp s)) as [h| |]; try reflexivity.
  cbn [rbind rmap reals ints]. rewrite insert_insert_eq.
  assert (Hoh : RowBlock.offset D <> hl) by congruence.
  assert (Hih : RowBlock.index D <> hl) by congruence.
  rewrite bind_eq.
  rewrite (squared_block_run _ _ offs vals);
    [ | cbn [ints]; rewrite lookup_insert_ne by auto; exact Hoffs
      | apply Hval1; intros l x Hlg Hl; map_lookup; congruence ].
  destruct (squares (RowBlock.size D) offs vals) as [[sq|]| |] eqn:Hsq;
    try reflexivity; cbn [rbind fst snd reals ints].
  - (* the block has values: [xx_value] holds their squares *)
    match goal with
    | |- context [fresh (dom ?m)] =>
        pose proof (fresh_lookup m) as Hx;
        remember (fresh (dom m)) as xl eqn:Exl; clear Exl
    end.
    apply lookup_insert_None in Hx as [Hx Hgx].
    apply lookup_insert_None in Hx as [Hx Hpx].
    assert (Hlx : ll <> xl) by congruence.
    rewrite bind_eq.
    rewrite (label_pass_run _ _ _ _ lab tau)
      by (cbn [reals]; map_lookup; congruence).
    destruct (label_loop curv_step lab 0 tau) as [p| |]; try reflexivity.
    cbn [rbind rmap put_real reals ints].
    rewrite bind_eq. unfold hessian_step.
    destruct (negb (compute_diag_hession cfg =? 0)%Z).
    + rewrite (Times_live _ _ _ _ _ _ offs idx (Some sq) p g1);
        cbn [RowBlock.offset RowBlock.index RowBlock.size reals ints];
        try (map_lookup; congruence).
      2:{ unfold value_view. cbn [RowBlock.value reals].
          exists sq. split; [map_lookup; congruence | reflexivity]. }
      change (int_data None _) with (@nil Z).
      match goal with
      | |- context [int_data (Some hl) ?st] =>
          replace (int_data (Some hl) st) with h
            by (unfold int_data; cbn [ints]; rewrite lookup_insert_eq;
                reflexivity)
      end.
      destruct (SpMV.times_updates offs idx (Some sq) p [] h 0
                  (RowBlock.size D)) as [us2| |]; try reflexivity.
      cbn [rbind].
      destruct (SpMV.accumulate g1 us2) as [g2| |]; try reflexivity.
      cbn [rbind rmap put_real reals ints].
      unfold free_opt, free_real, free_int, bind. cbn [reals ints].
      apply run_eq.
      * apply map_eq. intros i. map_lookup; congruence.
      * rewrite delete_insert_eq. apply delete_id, Hh.
    + rewrite upper_path_run.
      destruct (psize_of param =? 3)%Z; try reflexivity.
      cbn [rbind rmap put_real reals ints].
      unfold free_opt, free_real, free_int, bind. cbn [reals ints].
      apply run_eq.
      * apply map_eq. intros i. map_lookup; congruence.
      * rewrite delete_insert_eq. apply delete_id, Hh.
  - (* no value array: [XX] is [data] *)
    rewrite bind_eq.
    rewrite (label_pass_run _ _ _ _ lab tau)
      by (cbn [reals]; map_lookup; congruence).
    destruct (label_loop curv_step lab 0 tau) as [p| |]; try reflexivity.
    cbn [rbind rmap put_real reals ints].
    rewrite bind_eq. unfold hessian_step.
    destruct (negb (compute_diag_hession cfg =? 0)%Z).
    + pose proof (squares_None _ _ _ Hsq) as Hvn.
      rewrite (Times_live _ _ _ _ _ _ offs idx None p g1);
        cbn [reals ints]; try (map_lookup; congruence).
      2:{ subst vals. apply Hval1. intros l x Hlg Hl.
          map_lookup; congruence. }
      change (int_data None _) with (@nil Z).
      match goal with
      | |- context [int_data (Some hl) ?st] =>
          replace (int_data (Some hl) st) with h
            by (unfold int_data; cbn [ints]; rewrite lookup_insert_eq;
                reflexivity)
      end.
      destruct (SpMV.times_updates offs idx None p [] h 0
                  (RowBlock.size D)) as [us2| |]; try reflexivity.
      cbn [rbind].
      destruct (SpMV.accumulate g1 us2) as [g2| |]; try reflexivity.
      cbn [rbind rmap put_real reals ints].
      unfold free_opt, free_real, free_int, bind, ret. cbn [reals ints].
      apply run_eq.
      * apply map_eq. intros i. map_lookup; congruence.
      * rewrite delete_insert_eq. apply delete_id, Hh.
    + rewrite upper_path_run.
      destruct (psize_of param =? 3)%Z; try reflexivity.
      cbn [rbind rmap put_real reals ints].
      unfold free_opt, free_real, free_int, bind, ret. cbn [reals ints].
      apply run_eq.
      * apply map_eq. intros i. map_lookup; congruence.
      * rewrite delete_insert_eq. apply delete_id, Hh.
Qed.
End Forward.

(** ** Facts about the multiply primitive *)

Section SpMVFacts.
#[local] Open Scope res_scope.

Lemma accumulate_length us : forall y y',
  SpMV.accumulate y us = Ok y' -> length y' = length y.
Proof.
  induction us as [|[k a] us IH]; intros y y'; simpl.
  - intros [= <-]. reflexivity.
  - unfold at_. destruct (y !! k); simpl; try discriminate.
    intros H. apply IH in H. rewrite H. apply length_insert.
Qed.

Lemma accumulate_frame us : forall y y' k,
  SpMV.accumulate y us = Ok y' ->
  (forall a, (k, a) ∉ us) ->
  y' !! k = y !! k.
Proof.
  induction us as [|[j a] us IH]; intros y y' k; simpl.
  - intros [= <-] _. reflexivity.
  - unfold at_. destruct (y !! j) as [yj|]; simpl; try discriminate.
    intros H Hk. rewrite (IH _ _ k H).
    + apply list_lookup_insert_ne. intros ->. apply (Hk a). left.
    + intros b Hb. apply (Hk b). right. exact Hb.
Qed.

(** Every contribution of [Times] goes to the output position of one
    of its rows. *)
Lemma times_updates_slots offs idx vals x xp yp n : forall r us k a,
  SpMV.times_updates offs idx vals x xp yp r n = Ok us ->
  (k, a) ∈ us ->
  exists r', (r <= r' < r + n)%nat /\ SpMV.pos_at yp r' = Ok (Some k).
Proof.
  induction n as [|n IH]; intros r us k a; simpl.
  - intros [= <-] Hin. inversion Hin.
  - destruct (SpMV.pos_at yp r) as [o| |] eqn:Ep; simpl; try discriminate.
    destruct (match o with
              | Some k0 => _
              | None => Ok []
              end) as [u| |] eqn:Eu; simpl; try discriminate.
    destruct (SpMV.times_updates offs idx vals x xp yp (S r) n)
      as [rest| |] eqn:Er; simpl; try discriminate.
    intros [= <-] Hin. apply elem_of_app in Hin as [Hin|Hin].
    + destruct o as [k0|].
      * destruct (SpMV.row_range offs r) as [rg| |]; simpl in Eu;
          try discriminate.
        destruct (SpMV.row_dot _ _ _ _ _ _) as [d| |]; simpl in Eu;
          try discriminate.
        injection Eu as <-. apply list_elem_of_singleton in Hin.
        injection Hin as -> ->. exists r. split; [lia | exact Ep].
      * injection Eu as <-. inversion Hin.
    + destruct (IH _ _ _ _ Er Hin) as (r' & Hr' & Hp).
      exists r'. split; [lia | exact Hp].
Qed.

(** With the identity mapping, [Times] contributes to slot [r] for row
    [r], once per row. *)
Lemma times_updates_identity offs idx vals x xp n : forall r us,
  SpMV.times_updates offs idx vals x xp [] r n = Ok us ->
  map fst us = seq r n.
Proof.
  induction n as [|n IH]; intros r us; simpl.
  - intros [= <-]. reflexivity.
  - destruct (SpMV.row_range offs r) as [rg| |]; simpl; try discriminate.
    destruct (SpMV.row_dot _ _ _ _ _ _) as [d| |]; simpl; try discriminate.
    destruct (SpMV.times_updates offs idx vals x xp [] (S r) n)
      as [rest| |] eqn:Er; simpl; try discriminate.
    intros [= <-]. simpl. f_equal. apply IH. exact Er.
Qed.

Lemma accumulate_seq us : forall y y' r0,
  map fst us = seq r0 (length us) ->
  SpMV.accumulate y us = Ok y' ->
  forall i, (i < length us)%nat ->
            exists v d, y !! (r0 + i)%nat = Some v /\
                        us !! i = Some ((r0 + i)%nat, d) /\
                        y' !! (r0 + i)%nat = Some (v + d)%R.
Proof.
  induction us as [|[k a] us IH]; intros y y' r0 Hfst Hacc i Hi;
    simpl in *; [lia|].
  injection Hfst as -> Hfst.
  unfold at_ in Hacc. destruct (y !! r0) as [v0|] eqn:E0; simpl in Hacc;
    try discriminate.
  destruct i as [|i].
  - rewrite Nat.add_0_r. exists v0, a. repeat split; auto.
    rewrite (accumulate_frame _ _ _ r0 Hacc).
    + apply list_lookup_insert_eq. apply lookup_lt_Some in E0. exact E0.
    + intros b Hb. apply (list_elem_of_fmap_2 fst) in Hb. simpl in Hb.
      change (fst <$> us) with (map fst us) in Hb.
      rewrite Hfst in Hb. apply elem_of_seq in Hb. lia.
  - destruct (IH _ _ (S r0) Hfst Hacc i) as (v & d & Hv & Hu & Hy');
      [lia|].
    replace (r0 + S i)%nat with (S r0 + i)%nat by lia.
    exists v, d. repeat split; auto.
    rewrite list_lookup_insert_ne in Hv by lia. exact Hv.
Qed.

End SpMVFacts.

(** ** Halving the input of [TransTimes] *)

Section Linearity.
#[local] Open Scope res_scope.

Lemma at_map {A B} (f : A -> B) (l : list A) i :
  at_ (map f l) i = rmap f (at_ l i).
Proof.
  unfold at_. change (map f l) with (f <$> l).
  rewrite list_lookup_fmap. destruct (l !! i); reflexivity.
Qed.

Lemma row_scatter_half idx vals yp xk n : forall j us,
  SpMV.row_scatter idx vals yp xk j n = Ok us ->
  SpMV.row_scatter idx vals yp (half xk) j n = Ok (halve us).
Proof.
  induction n as [|n IH]; intros j us; simpl.
  - intros [= <-]. reflexivity.
  - destruct (at_ idx j) as [c| |]; simpl; try discriminate.
    destruct (SpMV.entry_value vals j) as [v| |]; simpl; try discriminate.
    destruct (SpMV.pos_at yp (Z.to_nat c)) as [o| |]; simpl;
      try discriminate.
    destruct (SpMV.row_scatter idx vals yp xk (S j) n) as [rest| |] eqn:E;
      simpl; try discriminate.
    rewrite (IH _ _ E). simpl. intros [= <-]. f_equal.
    destruct o as [k|]; [|reflexivity].
    simpl. f_equal. f_equal. unfold half. lra.
Qed.

Lemma halve_app us vs : halve (us ++ vs) = halve us ++ halve vs.
Proof. unfold halve. apply map_app. Qed.

Lemma trans_updates_half offs idx vals x xp yp n : forall r us,
  SpMV.trans_updates offs idx vals x xp yp r n = Ok us ->
  SpMV.trans_updates offs idx vals (map half x) xp yp r n =
  Ok (halve us).
Proof.
  induction n as [|n IH]; intros r us; simpl.
  - intros [= <-]. reflexivity.
  - destruct (SpMV.pos_at xp r) as [o| |]; simpl; try discriminate.
    destruct o as [k|].
    + rewrite at_map.
      destruct (at_ x k) as [xk| |]; simpl; try discriminate.
      destruct (SpMV.row_range offs r) as [rg| |]; simpl; try discriminate.
      destruct (SpMV.row_scatter idx vals yp xk rg.1 rg.2) as [u| |] eqn:Eu;
        simpl; try discriminate.
      rewrite (row_scatter_half _ _ _ _ _ _ _ Eu). simpl.
      destruct (SpMV.trans_updates offs idx vals x xp yp (S r) n)
        as [rest| |] eqn:E; simpl; try discriminate.
      rewrite (IH _ _ E). simpl. intros [= <-]. rewrite halve_app.
      reflexivity.
    + destruct (SpMV.trans_updates offs idx vals x xp yp (S r) n)
        as [rest| |] eqn:E; simpl; try discriminate.
      rewrite (IH _ _ E). simpl. intros [= <-]. reflexivity.
Qed.

(** [y[k] += b] commutes with a run of contributions. *)
Lemma accumulate_insert us : forall y r k v b,
  y !! k = Some v ->
  SpMV.accumulate (<[k := (v + b)%R]> y) us = Ok r ->
  exists r0 v0, SpMV.accumulate y us = Ok r0 /\ r0 !! k = Some v0 /\
                r = <[k := (v0 + b)%R]> r0.
Proof.
  induction us as [|[j a] us IH]; intros y r k v b Hk; simpl.
  - intros [= <-]. eauto.
  - unfold at_. destruct (decide (j = k)) as [->|Hjk].
    + rewrite list_lookup_insert_eq by (eapply lookup_lt_Some; eauto).
      rewrite Hk. simpl. rewrite list_insert_insert_eq.
      replace (v + b + a)%R with ((v + a) + b)%R by lra.
      intros H.
      rewrite <- (list_insert_insert_eq y k (v + a + b)%R (v + a)%R) in H.
      apply IH in H; [exact H|].
      apply list_lookup_insert_eq. eapply lookup_lt_Some; eauto.
    + rewrite list_lookup_insert_ne by auto.
      destruct (y !! j) as [yj|] eqn:Ej; simpl; try discriminate.
      rewrite list_insert_insert_ne by auto.
      intros H. apply IH in H; [exact H|].
      rewrite list_lookup_insert_ne by auto. exact Hk.
Qed.

Lemma accumulate_halves us : forall y y1,
  SpMV.accumulate y us = Ok y1 ->
  exists y2, SpMV.accumulate y (halve us) = Ok y2 /\
             SpMV.accumulate y2 (halve us) = Ok y1.
Proof.
  induction us as [|[k a] us IH]; intros y y1; simpl.
  - intros [= <-]. eauto.
  - unfold at_. destruct (y !! k) as [v|] eqn:Ek; simpl; try discriminate.
    intros H.
    replace (v + a)%R with ((v + half a) + half a)%R in H
      by (unfold half; lra).
    rewrite <- (list_insert_insert_eq y k (v + half a + half a)%R
                  (v + half a)%R) in H.
    destruct (IH _ _ H) as (y2' & H2 & H1).
    apply accumulate_insert in H2
      as (y2 & v2 & Hy2 & Hv2 & ->);
      [|apply list_lookup_insert_eq; eapply lookup_lt_Some; eauto].
    exists y2. split; [exact Hy2|].
    rewrite Hv2. simpl. exact H1.
Qed.

End Linearity.

(** ** [Predict] *)

Section PredictFacts.
#[local] Open Scope res_scope.

Lemma TransTimes_run D x y xp yp s :
  SpMV.TransTimes D x y xp yp s =
  match
    (us <- SpMV.trans_updates
             (int_data (Some (RowBlock.offset D)) s)
             (int_data (Some (RowBlock.index D)) s)
             (block_values D s)
             (real_data x s) (int_data xp s) (int_data yp s)
             0 (RowBlock.size D) ;;
     SpMV.accumulate (real_data y s) us)
  with
  | Ok v => write_real y v s
  | Fatal => Fatal
  | Undef => Undef
  end.
Proof.
  unfold SpMV.TransTimes, SpMV.block_data, block_values.
  destruct (RowBlock.value D); simpl; unfold bind, lift, read_real,
    read_int, ret, rmap, rbind; simpl;
    destruct (SpMV.trans_updates _ _ _ _ _ _ _ _); try reflexivity;
    destruct (SpMV.accumulate _ _); reflexivity.
Qed.

Lemma Predict_run D param pred s a0 :
  (1 <= psize_of param <= 2)%Z ->
  param !! 0%nat = Some a0 ->
  Predict D param pred s =
  match
    (us <- SpMV.trans_updates
             (int_data (Some (RowBlock.offset D)) s)
             (int_data (Some (RowBlock.index D)) s)
             (block_values D s)
             (real_data a0 s) (int_data (w_pos_of param) s) []
             0 (RowBlock.size D) ;;
     SpMV.accumulate (real_data pred s) us)
  with
  | Ok v => write_real pred v s
  | Fatal => Fatal
  | Undef => Undef
  end.
Proof.
  intros Hlen Hp0. unfold Predict.
  rewrite bind_eq. unfold CHECK at 1.
  replace (1 <=? psize_of param)%Z with true
    by (symmetry; apply Z.leb_le; lia).
  rewrite bind_eq. unfold CHECK at 1.
  replace (psize_of param <=? 2)%Z with true
    by (symmetry; apply Z.leb_le; lia).
  rewrite bind_eq. unfold param_at at 1, at_. rewrite Hp0. simpl.
  rewrite bind_eq.
  assert (Hw : (if (psize_of param =? 2)%Z
                then param_at param 1 else ret None) s =
               Ok (w_pos_of param, s)).
  { unfold w_pos_of. destruct (psize_of param =? 2)%Z eqn:E.
    - apply Z.eqb_eq in E.
      destruct (psize_lookup param 1) as [x Hx]; [lia | lia |].
      unfold param_at, at_, lift. rewrite Hx. reflexivity.
    - reflexivity. }
  rewrite Hw. apply TransTimes_run.
Qed.

Lemma Predict_Ok_length D param pred s r :
  Predict D param pred s = Ok r ->
  (1 <= psize_of param <= 2)%Z /\ exists a0, param !! 0%nat = Some a0.
Proof.
  unfold Predict. intros H. run_inv.
  apply Z.leb_le in Echk, Echk0. split; [lia|].
  unfold at_ in Epure. destruct (param !! 0%nat); [eauto|discriminate].
Qed.

Lemma real_data_write a v s u s' :
  write_real a v s = Ok (u, s') ->
  length v = length (real_data a s) ->
  real_data a s' = v.
Proof.
  unfold write_real, real_data. destruct a as [l|].
  - intros [= _ <-]. simpl. rewrite lookup_alter_eq.
    destruct (reals s !! l); simpl; [reflexivity|].
    destruct v; [reflexivity|discriminate].
  - intros _. destruct v; [reflexivity|discriminate].
Qed.

Lemma Predict_linear D param pred s s1 dw :
  param !! 0%nat = Some (Some dw) ->
  pred <> Some dw ->
  RowBlock.value D <> Some dw ->
  (pred = None \/ RowBlock.value D <> pred) ->
  Predict D param pred s = Ok (tt, s1) ->
  (exists us,
     SpMV.trans_updates
       (int_data (Some (RowBlock.offset D)) s)
       (int_data (Some (RowBlock.index D)) s)
       (block_values D s) (real_data (Some dw) s)
       (int_data (w_pos_of param) s) [] 0 (RowBlock.size D) = Ok us /\
     SpMV.accumulate (real_data pred s) us = Ok (real_data pred s1)) /\
  exists s2 s3,
    Predict D param pred (halved dw s) = Ok (tt, s2) /\
    Predict D param pred s2 = Ok (tt, s3) /\
    real_data pred s3 = real_data pred s1.
Proof.
  intros Hp0 Hpd Hvd Hvp Hrun.
  destruct (Predict_Ok_length _ _ _ _ _ Hrun) as [Hlen _].
  rewrite (Predict_run _ _ _ _ _ Hlen Hp0) in Hrun.
  destruct (SpMV.trans_updates _ _ _ _ _ _ _ _) as [us| |] eqn:Eus;
    simpl in Hrun; try discriminate.
  destruct (SpMV.accumulate (real_data pred s) us) as [y1| |] eqn:Ey1;
    try discriminate.
  pose proof (accumulate_length _ _ _ Ey1) as Hl1.
  pose proof (real_data_write _ _ _ _ _ Hrun Hl1) as Hs1.
  split; [exists us; split; [reflexivity | rewrite Hs1; exact Ey1]|].
  destruct (accumulate_halves _ _ _ Ey1) as (y2 & Ey2 & Ey21).
  pose proof (accumulate_length _ _ _ Ey2) as Hl2.
  (* what the call reads in the halved store *)
  assert (Hx : real_data (Some dw) (halved dw s)
               = map half (real_data (Some dw) s)).
  { unfold real_data, halved. simpl. rewrite lookup_alter_eq.
    destruct (reals s !! dw); reflexivity. }
  assert (Hy : real_data pred (halved dw s) = real_data pred s).
  { unfold real_data, halved. destruct pred as [g|]; [|reflexivity].
    simpl. rewrite lookup_alter_ne by congruence. reflexivity. }
  assert (Hv : block_values D (halved dw s) = block_values D s).
  { unfold block_values, real_data, halved.
    destruct (RowBlock.value D) as [vl|]; [|reflexivity].
    simpl. rewrite lookup_alter_ne by congruence. reflexivity. }
  exists (match pred with
          | Some l => Store (alter (fun _ => y2) l (reals (halved dw s)))
                        (ints s)
          | None => halved dw s
          end).
  set (s2 := match pred with Some l => _ | None => _ end).
  assert (Hrun2 : Predict D param pred (halved dw s) = Ok (tt, s2)).
  { rewrite (Predict_run _ _ _ _ _ Hlen Hp0), Hx, Hy, Hv.
    change (int_data ?a (halved dw s)) with (int_data a s).
    rewrite (trans_updates_half _ _ _ _ _ _ _ _ _ Eus). simpl.
    rewrite Ey2. subst s2. unfold write_real.
    destruct pred; reflexivity. }
  assert (Hy2 : real_data pred s2 = y2).
  { rewrite (Predict_run _ _ _ _ _ Hlen Hp0), Hx, Hy, Hv in Hrun2.
    change (int_data ?a (halved dw s)) with (int_data a s) in Hrun2.
    rewrite (trans_updates_half _ _ _ _ _ _ _ _ _ Eus) in Hrun2.
    simpl in Hrun2. rewrite Ey2 in Hrun2.
    eapply real_data_write; [exact Hrun2|]. rewrite Hy. exact Hl2. }
  assert (Hx2 : real_data (Some dw) s2 = map half (real_data (Some dw) s)).
  { rewrite <- Hx. subst s2. destruct pred as [g|]; [|reflexivity].
    unfold real_data. simpl. rewrite lookup_alter_ne by congruence.
    reflexivity. }
  assert (Hv2 : block_values D s2 = block_values D s).
  { rewrite <- Hv. subst s2. destruct pred as [g|]; [|reflexivity].
    unfold block_values, real_data.
    destruct (RowBlock.value D) as [vl|]; [|reflexivity].
    simpl. rewrite (lookup_alter_ne _ _ g vl); [reflexivity|].
    destruct Hvp as [?|Hvp]; congruence. }
  assert (Hi2 : forall a, int_data a s2 = int_data a s).
  { intros a. subst s2. destruct pred; reflexivity. }
  destruct (write_real pred y1 s2) as [[[] s3]| |] eqn:Ew.
  2,3: (unfold write_real in Ew; destruct pred; discriminate).
  exists s3. split; [exact Hrun2|]. split.
  - rewrite (Predict_run _ _ _ _ _ Hlen Hp0), Hx2, Hy2, Hv2, !Hi2.
    rewrite (trans_updates_half _ _ _ _ _ _ _ _ _ Eus). simpl.
    rewrite Ey21. exact Ew.
  - rewrite Hs1. eapply real_data_write; [exact Ew|].
    rewrite Hy2. congruence.
Qed.

End PredictFacts.

(** ** Where no check can fail *)

Section NeverFatal.

Lemma rbind_nf {A B} (r : result A) (k : A -> result B) :
  r <> Fatal -> (forall a, k a <> Fatal) -> rbind r k <> Fatal.
Proof. destruct r; simpl; auto. Qed.

Lemma at_nf {A} (l : list A) i : at_ l i <> Fatal.
Proof. unfold at_. destruct (l !! i); discriminate. Qed.

Lemma Undef_nf {A} : @Undef A <> Fatal.
Proof. discriminate. Qed.

Lemma label_loop_nf f lab p : forall i, label_loop f lab i p <> Fatal.
Proof.
  induction p as [|pi p IH]; intros i; simpl; [discriminate|].
  apply rbind_nf; [apply at_nf|]. intros l. unfold rmap.
  apply rbind_nf; [apply IH | discriminate].
Qed.

Lemma pos_at_nf pos i : SpMV.pos_at pos i <> Fatal.
Proof.
  unfold SpMV.pos_at. destruct pos; [discriminate|].
  apply rbind_nf; [apply at_nf | discriminate].
Qed.

Lemma row_range_nf offs r : SpMV.row_range offs r <> Fatal.
Proof.
  unfold SpMV.row_range. apply rbind_nf; [apply at_nf|]. intros lo.
  apply rbind_nf; [apply at_nf | discriminate].
Qed.

Lemma entry_value_nf vals j : SpMV.entry_value vals j <> Fatal.
Proof. destruct vals; simpl; [apply at_nf | discriminate]. Qed.

Lemma row_dot_nf idx vals x xp n : forall j,
  SpMV.row_dot idx vals x xp j n <> Fatal.
Proof.
  induction n as [|n IH]; intros j; simpl; [discriminate|].
  apply rbind_nf; [apply at_nf|]. intros c.
  apply rbind_nf; [apply entry_value_nf|]. intros v.
  apply rbind_nf; [apply pos_at_nf|]. intros k.
  apply rbind_nf; [apply IH|]. intros rest.
  destruct k; [|discriminate].
  apply rbind_nf; [apply at_nf | discriminate].
Qed.

Lemma times_updates_nf offs idx vals x xp yp n : forall r,
  SpMV.times_updates offs idx vals x xp yp r n <> Fatal.
Proof.
  induction n as [|n IH]; intros r; simpl; [discriminate|].
  apply rbind_nf; [apply pos_at_nf|]. intros k.
  apply rbind_nf.
  - destruct k; [|discriminate].
    apply rbind_nf; [apply row_range_nf|]. intros rg.
    apply rbind_nf; [apply row_dot_nf | discriminate].
  - intros u. apply rbind_nf; [apply IH | discriminate].
Qed.

Lemma accumulate_nf us : forall y, SpMV.accumulate y us <> Fatal.
Proof.
  induction us as [|[k a] us IH]; intros y; simpl; [discriminate|].
  apply rbind_nf; [apply at_nf|]. intros yk. apply IH.
Qed.

Lemma shift_loop_nf h : shift_loop h <> Fatal.
Proof.
  induction h as [|z h IH]; simpl; [discriminate|].
  apply rbind_nf.
  - unfold shift_pos. destruct (0 <=? z)%Z; [|discriminate].
    destruct (z =? int_max)%Z; discriminate.
  - intros z'. apply rbind_nf; [exact IH | discriminate].
Qed.

Lemma square_loop_nf v start n : forall i,
  square_loop v start i n <> Fatal.
Proof.
  induction n as [|n IH]; intros i; simpl; [discriminate|].
  apply rbind_nf; [apply at_nf|]. intros x.
  apply rbind_nf; [apply IH | discriminate].
Qed.

Lemma nf_bind {A B} (m : M A) (k : A -> M B) :
  never_fatal m -> (forall a, never_fatal (k a)) ->
  never_fatal (bind m k).
Proof.
  intros Hm Hk s. unfold bind. specialize (Hm s).
  destruct (m s) as [[a s']| |]; [apply Hk | congruence | discriminate].
Qed.

Lemma nf_lift {A} (r : result A) : r <> Fatal -> never_fatal (lift r).
Proof. intros H s. unfold lift, rmap. destruct r; simpl; congruence. Qed.

Lemma nf_ret {A} (a : A) : never_fatal (ret a).
Proof. intros s. discriminate. Qed.

Lemma nf_read_real a : never_fatal (read_real a).
Proof. intros s. discriminate. Qed.

Lemma nf_read_int a : never_fatal (read_int a).
Proof. intros s. discriminate. Qed.

Lemma nf_write_real a v : never_fatal (write_real a v).
Proof. intros s. unfold write_real. destruct a; discriminate. Qed.

Lemma nf_write_int a v : never_fatal (write_int a v).
Proof. intros s. unfold write_int. destruct a; discriminate. Qed.

Lemma nf_alloc_real v : never_fatal (alloc_real v).
Proof. intros s. discriminate. Qed.

Lemma nf_alloc_int v : never_fatal (alloc_int v).
Proof. intros s. discriminate. Qed.

Lemma nf_free_real l : never_fatal (free_real l).
Proof. intros s. discriminate. Qed.

Lemma nf_free_int l : never_fatal (free_int l).
Proof. intros s. discriminate. Qed.

Lemma nf_free_opt a : never_fatal (free_opt a).
Proof. destruct a; [apply nf_free_real | apply nf_ret]. Qed.

Lemma nf_param_at param i : never_fatal (param_at param i).
Proof. apply nf_lift, at_nf. Qed.

Lemma nf_Times D x y xp yp : never_fatal (SpMV.Times D x y xp yp).
Proof.
  intros s. rewrite Times_run.
  destruct (rbind _ _) as [v| |] eqn:E; [apply nf_write_real| |discriminate].
  exfalso. revert E. apply rbind_nf; [apply times_updates_nf|].
  intros us. apply accumulate_nf.
Qed.

Lemma nf_label_pass f ll pl : never_fatal (label_pass f ll pl).
Proof.
  unfold label_pass.
  apply nf_bind; [apply nf_read_real|]. intros lab.
  apply nf_bind; [apply nf_read_real|]. intros pv.
  apply nf_bind; [apply nf_lift, label_loop_nf|]. intros pv'.
  apply nf_write_real.
Qed.

Lemma nf_shift_pass h : never_fatal (shift_pass h).
Proof.
  unfold shift_pass.
  apply nf_bind; [apply nf_read_int|]. intros hv.
  apply nf_bind; [apply nf_lift, shift_loop_nf|]. intros hv'.
  apply nf_write_int.
Qed.

Lemma nf_squared_block D : never_fatal (squared_block D).
Proof.
  unfold squared_block. destruct (RowBlock.value D); [|apply nf_ret].
  apply nf_bind; [apply nf_read_int|]. intros offs.
  apply nf_bind; [apply nf_lift, at_nf|]. intros start.
  apply nf_bind; [apply nf_lift, at_nf|]. intros stop.
  apply nf_bind.
  { destruct (stop <? start)%Z; [apply nf_lift, Undef_nf | apply nf_ret]. }
  intros _.
  apply nf_bind; [apply nf_read_real|]. intros vals.
  apply nf_bind; [apply nf_lift, square_loop_nf|]. intros sq.
  apply nf_bind; [apply nf_alloc_real|]. intros xl. apply nf_ret.
Qed.

(** With three parameters and a label, [CalcGrad] fails no check. *)
Lemma CalcGrad_three_nf cfg D param grad s :
  length param = 3%nat ->
  RowBlock.label D <> None ->
  CalcGrad cfg D param grad s <> Fatal.
Proof.
  intros Hlen Hlab.
  assert (Hps : psize_of param = 3%Z)
    by (unfold psize_of; rewrite Hlen; reflexivity).
  unfold CalcGrad. rewrite Hps.
  change (1 <=? 3)%Z with true. change (3 <=? 3)%Z with true.
  revert s.
  apply nf_bind; [intros s; discriminate|]. intros _.
  apply nf_bind; [intros s; discriminate|]. intros _.
  apply nf_bind; [apply nf_param_at|]. intros a0.
  apply nf_bind.
  { apply nf_bind; [apply nf_read_real|]. intros v. apply nf_alloc_real. }
  intros p.
  apply nf_bind.
  { intros s. unfold CHECK_NOTNULL.
    destruct (RowBlock.label D); [discriminate|congruence]. }
  intros ll.
  apply nf_bind; [apply nf_label_pass|]. intros _.
  change (1 <? 3)%Z with true.
  apply nf_bind; [apply nf_param_at|]. intros gp.
  apply nf_bind; [apply nf_Times|]. intros _.
  destruct (_ && _); [apply nf_free_real|].
  apply nf_bind.
  { apply nf_bind; [apply nf_read_int|]. intros v. apply nf_alloc_int. }
  intros hl.
  apply nf_bind; [apply nf_shift_pass|]. intros _.
  apply nf_bind; [apply nf_squared_block|]. intros xx.
  apply nf_bind; [apply nf_label_pass|]. intros _.
  apply nf_bind.
  { unfold hessian_step. destruct (negb _); [apply nf_Times|].
    intros s. pose proof (upper_path_run param s) as H.
    rewrite Hps in H. rewrite H. discriminate. }
  intros _.
  apply nf_bind; [apply nf_free_opt|]. intros _.
  apply nf_bind; [apply nf_free_int|]. intros _.
  apply nf_free_real.
Qed.

End NeverFatal.

(** ** The branch of the upper bound *)

Section UpperBound.

(** The upper-bound branch adds nothing to what the first-order call
    leaves in the store. *)
Lemma upper_is_first_order cfg D param grad s s' :
  compute_diag_hession cfg = 0%Z ->
  compute_upper_diag_hession cfg <> 0%Z ->
  CalcGrad cfg D param grad s = Ok (tt, s') ->
  CalcGrad cfg_first_order D param grad s = Ok (tt, s').
Proof.
  intros Hd Hu H. unfold CalcGrad in *.
  apply bind_Ok in H as (u1 & s1 & H1 & H). rewrite bind_eq, H1.
  apply bind_Ok in H as (u2 & s2 & H2 & H). rewrite bind_eq, H2.
  apply bind_Ok in H as (a0 & s3 & H3 & H). rewrite bind_eq, H3.
  apply bind_Ok in H as (pl & s4 & H4 & H). rewrite bind_eq, H4.
  apply bind_Ok in H as (ll & s5 & H5 & H). rewrite bind_eq, H5.
  apply bind_Ok in H as (u6 & s6 & H6 & H). rewrite bind_eq, H6.
  apply bind_Ok in H as (gp & s7 & H7 & H). rewrite bind_eq, H7.
  apply bind_Ok in H as (u8 & s8 & H8 & H). rewrite bind_eq, H8.
  rewrite Hd in H. cbn [compute_diag_hession compute_upper_diag_hession
                         cfg_first_order Z.eqb andb].
  replace (compute_upper_diag_hession cfg =? 0)%Z with false in H
    by (symmetry; apply Z.eqb_neq; exact Hu).
  cbn [Z.eqb andb] in H.
  apply bind_Ok in H as (hl & sh & Hh & H).
  apply bind_Ok in H as (? & sh' & Hsh & H).
  apply bind_Ok in H as ([xx XX] & sx & Hx & H).
  apply bind_Ok in H as (? & sc & Hc & H).
  apply bind_Ok in H as (? & sd & Hsd & H).
  apply bind_Ok in H as (? & sf & Hf & H).
  assert (Hi' : delete hl (ints sh') = ints s8 /\ reals sh' = reals s8).
  { unfold shift_pass in Hsh. run_inv.
    unfold write_int in Hsh. injection Hsh as _ <-. simpl.
    rewrite delete_alter_eq, delete_insert_eq.
    split; [apply delete_id, fresh_lookup | reflexivity]. }
  destruct Hi' as [Hi' Hr'].
  apply squared_block_effect in Hx as [Hix Hx]. simpl in Hx.
  apply label_pass_effect in Hc as [Hic Hrc].
  assert (sd = sc) as ->.
  { unfold hessian_step in Hsd. rewrite Hd in Hsd. cbn [Z.eqb negb] in Hsd.
    run_inv. reflexivity. }
  clear Hsd. simpl in Hf.
  unfold free_real at 1.
  destruct xx as [xl|]; simpl in Hf; run_inv; simpl in *; apply run_eq.
  - destruct Hx as [Hx Hrx]. apply map_eq. intros l. map_lookup; auto.
    + rewrite Hr' in Hx. congruence.
    + rewrite Hrc, Hrx, Hr' by auto. reflexivity.
  - rewrite Hic, Hix. symmetry. exact Hi'.
  - apply map_eq. intros l. map_lookup; auto.
    rewrite Hrc, Hx, Hr' by auto. reflexivity.
  - rewrite Hic, Hix. symmetry. exact Hi'.
Qed.

End UpperBound.

(** ** The slots of the output *)

Section Slots.

Lemma grad_pos_run param s gp s' :
  (if (1 <? psize_of param)%Z then param_at param 1 else ret None)
    s = Ok (gp, s') ->
  gp = grad_pos_of param /\ s' = s.
Proof.
  unfold grad_pos_of. destruct (1 <? psize_of param)%Z; intros H.
  - unfold param_at in H. apply lift_Ok in H as [H ->]. split; [|auto].
    unfold at_ in H. destruct (param !! 1%nat); [|discriminate].
    injection H as ->. reflexivity.
  - apply ret_Ok in H as [<- <-]. auto.
Qed.

Lemma first_order_slots D param grad s s' k :
  CalcGrad cfg_first_order D param grad s = Ok (tt, s') ->
  ~ gradient_slot (int_data (grad_pos_of param) s) (RowBlock.size D) k ->
  real_data grad s' !! k = real_data grad s !! k.
Proof.
  intros H Hk. unfold CalcGrad in H.
  apply bind_Ok in H as (u1 & s1 & H1 & H).
  apply bind_Ok in H as (u2 & s2 & H2 & H).
  apply bind_Ok in H as (a0 & s3 & H3 & H).
  apply bind_Ok in H as (pl & s4 & H4 & H).
  apply bind_Ok in H as (ll & s5 & H5 & H).
  apply bind_Ok in H as (u6 & s6 & H6 & H).
  apply bind_Ok in H as (gp & s7 & H7 & H).
  apply bind_Ok in H as (u8 & s8 & H8 & H).
  cbn [compute_diag_hession compute_upper_diag_hession cfg_first_order
         Z.eqb andb] in H.
  apply grad_pos_run in H7 as [-> ->].
  apply label_pass_effect in H6 as [Hi6 Hr6].
  run_inv. simpl in Hi6, Hr6.
  pose proof (fresh_lookup (reals s)) as Hp.
  remember (fresh (dom (reals s))) as pl eqn:Epl. clear Epl.
  destruct grad as [g|]; [|reflexivity].
  destruct (decide (g = pl)) as [->|Hgp].
  { unfold real_data. simpl. rewrite lookup_delete_eq, Hp. reflexivity. }
  assert (Hg6 : real_data (Some g) s6 = real_data (Some g) s).
  { unfold real_data. rewrite Hr6 by auto.
    rewrite lookup_insert_ne by auto. reflexivity. }
  rewrite Times_run in H8.
  destruct (SpMV.times_updates _ _ _ _ _ _ _ _) as [us| |] eqn:Eus;
    cbn [rbind] in H8; try discriminate.
  destruct (SpMV.accumulate (real_data (Some g) s6) us) as [v| |] eqn:Ev;
    try discriminate.
  pose proof (real_data_write _ _ _ _ _ H8 (accumulate_length _ _ _ Ev))
    as Hv.
  transitivity (real_data (Some g) s8 !! k).
  { unfold real_data. simpl. rewrite lookup_delete_ne by auto.
    reflexivity. }
  rewrite Hv, <- Hg6. eapply accumulate_frame; [exact Ev|].
  intros a Hin. apply Hk.
  destruct (times_updates_slots _ _ _ _ _ _ _ _ _ _ _ Eus Hin)
    as (r & Hr & Hpos).
  exists r. split; [lia|].
  replace (int_data (grad_pos_of param) s)
    with (int_data (grad_pos_of param) s6); [exact Hpos|].
  unfold int_data. rewrite Hi6. reflexivity.
Qed.

End Slots.

(** ** The runs of the scenario *)

Section Scenario.
#[local] Open Scope R_scope.

Lemma label_sign_pos l : 0 < l -> label_sign l = 1.
Proof. intros H. destruct (label_sign_cases l) as [[_ ->]|[? _]]; lra. Qed.

Lemma label_sign_nonpos l : l <= 0 -> label_sign l = -1.
Proof. intros H. destruct (label_sign_cases l) as [[? _]|[_ ->]]; lra. Qed.

Lemma tau_step_at_0 l : tau_step l 0 = - label_sign l / 2.
Proof. unfold tau_step. rewrite Rmult_0_r, exp_0. lra. Qed.

(** Every call of the scenario runs as its pure reading says. *)
Lemma scen_CalcGrad cfg param a0 lab :
  (1 <= length param <= 3)%nat ->
  param !! 0%nat = Some a0 ->
  CalcGrad cfg scen_block param (Some 5%positive) (scen_store lab) =
  put_real 5%positive
    (grad_after cfg (psize_of param) 2
       [0; 2; 4]%Z [0; 1; 0; 1]%Z (Some [1; 1; 1; 1]) lab
       (real_data a0 (scen_store lab))
       (int_data (grad_pos_of param) (scen_store lab)) [0; 0; 0; 0])
    (scen_store lab).
Proof.
  intros Hlen Hp0.
  apply (CalcGrad_run cfg scen_block param 5%positive (scen_store lab)
           a0 2%positive lab).
  - rewrite psize_small by lia. lia.
  - exact Hp0.
  - reflexivity.
  - reflexivity.
  - reflexivity.
  - reflexivity.
  - discriminate.
  - discriminate.
  - exists [1; 1; 1; 1]. split; reflexivity.
  - reflexivity.
Qed.

Lemma tau_pos : tau_step 1 0 = -1 / 2.
Proof. rewrite tau_step_at_0, label_sign_pos by lra. lra. Qed.

Lemma tau_neg : tau_step (-1) 0 = 1 / 2.
Proof. rewrite tau_step_at_0, label_sign_nonpos by lra. lra. Qed.

Lemma curv_pos : curv_step 1 (-1 / 2) = 1 / 4.
Proof. unfold curv_step. rewrite label_sign_pos by lra. lra. Qed.

Lemma curv_neg : curv_step (-1) (1 / 2) = 1 / 4.
Proof. unfold curv_step. rewrite label_sign_nonpos by lra. lra. Qed.

Lemma scen_tau_val : label_loop tau_step [1; -1] 0 [0; 0] = Ok [-1/2; 1/2].
Proof.
  cbn [label_loop at_ lookup list_lookup rbind rmap].
  rewrite tau_pos, tau_neg. reflexivity.
Qed.

Lemma scen_curv_val :
  label_loop curv_step [1; -1] 0 [-1/2; 1/2] = Ok [1/4; 1/4].
Proof.
  cbn [label_loop at_ lookup list_lookup rbind rmap].
  rewrite curv_pos, curv_neg. reflexivity.
Qed.

(** Evaluates the pure reading on the buffers of the scenario. *)
Ltac scen_eval :=
  unfold grad_after, first_order; simpl;
  rewrite ?tau_pos, ?tau_neg; rewrite ?curv_pos, ?curv_neg;
  repeat f_equal; lra.

Lemma scen_grad_diag :
  grad_after cfg_diag 2 2 [0; 2; 4]%Z [0; 1; 0; 1]%Z (Some [1; 1; 1; 1])
    [1; -1] [0; 0] [0; 2]%Z [0; 0; 0; 0] = Ok [0; 1/2; 0; 1/2].
Proof. scen_eval. Qed.

Lemma scen_grad_first :
  grad_after cfg_first_order 2 2 [0; 2; 4]%Z [0; 1; 0; 1]%Z
    (Some [1; 1; 1; 1]) [1; -1] [0; 0] [0; 2]%Z [0; 0; 0; 0]
  = Ok [0; 0; 0; 0].
Proof. scen_eval. Qed.

Lemma scen_grad_identity :
  grad_after cfg_diag 1 2 [0; 2; 4]%Z [0; 1; 0; 1]%Z (Some [1; 1; 1; 1])
    [1; -1] [0; 0] [] [0; 0; 0; 0] = Ok [1/2; 1/2; 0; 0].
Proof. scen_eval. Qed.

Lemma scen_grad_upper :
  grad_after cfg_upper 3 2 [0; 2; 4]%Z [0; 1; 0; 1]%Z (Some [1; 1; 1; 1])
    [1; 1] [0; 0] [] [0; 0; 0; 0] = Ok [-1; -1; 0; 0].
Proof. scen_eval. Qed.

Lemma scen_run_diag :
  CalcGrad cfg_diag scen_block [Some 3%positive; Some 3%positive]
    (Some 5%positive) (scen_store [1; -1]) =
  Ok (tt, scen_done [1; -1] [0; 1/2; 0; 1/2]).
Proof.
  rewrite (scen_CalcGrad _ _ (Some 3%positive)) by (simpl; auto; lia).
  change (real_data _ _) with [0; 0].
  change (int_data _ _) with [0; 2]%Z.
  change (psize_of _) with 2%Z.
  rewrite scen_grad_diag. reflexivity.
Qed.

Lemma scen_run_first :
  CalcGrad cfg_first_order scen_block [Some 3%positive; Some 3%positive]
    (Some 5%positive) (scen_store [1; -1]) =
  Ok (tt, scen_store [1; -1]).
Proof.
  rewrite (scen_CalcGrad _ _ (Some 3%positive)) by (simpl; auto; lia).
  change (real_data _ _) with [0; 0].
  change (int_data _ _) with [0; 2]%Z.
  change (psize_of _) with 2%Z.
  rewrite scen_grad_first. unfold put_real, scen_store. simpl.
  rewrite insert_id by reflexivity. reflexivity.
Qed.

Lemma scen_run_identity :
  CalcGrad cfg_diag scen_block [Some 3%positive]
    (Some 5%positive) (scen_store [1; -1]) =
  Ok (tt, scen_done [1; -1] [1/2; 1/2; 0; 0]).
Proof.
  rewrite (scen_CalcGrad _ _ (Some 3%positive)) by (simpl; auto; lia).
  change (real_data _ _) with [0; 0].
  change (int_data _ _) with (@nil Z).
  change (psize_of _) with 1%Z.
  rewrite scen_grad_identity. reflexivity.
Qed.

Lemma scen_run_upper :
  CalcGrad cfg_upper scen_block [Some 3%positive; None; Some 4%positive]
    (Some 5%positive) (scen_store [1; 1]) =
  Ok (tt, scen_done [1; 1] [-1; -1; 0; 0]).
Proof.
  rewrite (scen_CalcGrad _ _ (Some 3%positive)) by (simpl; auto; lia).
  change (real_data _ _) with [0; 0].
  change (int_data _ _) with (@nil Z).
  change (psize_of _) with 3%Z.
  rewrite scen_grad_upper. reflexivity.
Qed.

Lemma scen_run_upper_fatal :
  CalcGrad cfg_upper scen_block [Some 3%positive]
    (Some 5%positive) (scen_store [1; -1]) = Fatal.
Proof.
  rewrite (scen_CalcGrad _ _ (Some 3%positive)) by (simpl; auto; lia).
  change (real_data _ _) with [0; 0].
  change (int_data _ _) with (@nil Z).
  change (psize_of _) with 1%Z.
  unfold grad_after, first_order. simpl. reflexivity.
Qed.

Lemma scen_predict :
  Predict scen_block [Some 4%positive] (Some 3%positive)
    (scen_store [1; -1]) = Ok (tt, scen_store [1; -1]).
Proof.
  rewrite (Predict_run _ _ _ _ (Some 4%positive))
    by first [reflexivity | rewrite psize_small by (simpl; lia); simpl; lia].
  change (real_data (Some 4%positive) _) with [0; 0].
  change (real_data (Some 3%positive) _) with [0; 0].
  change (int_data (w_pos_of _) _) with (@nil Z).
  change (int_data (Some (RowBlock.offset scen_block)) _)
    with [0; 2; 4]%Z.
  change (int_data (Some (RowBlock.index scen_block)) _)
    with [0; 1; 0; 1]%Z.
  change (block_values scen_block _) with (Some [1; 1; 1; 1]).
  match goal with
  | |- match ?r with _ => _ end = _ =>
      replace r with (@Ok (list R) [0; 0])
        by (simpl; repeat f_equal; lra)
  end.
  unfold write_real, scen_store. cbn [reals ints].
  rewrite alter_id; [reflexivity|].
  intros x Hx. change (Some [0; 0] = Some x) in Hx. congruence.
Qed.

End Scenario.

(** ** The transforms in floating point *)

Section FloatFacts.
#[local] Open Scope R_scope.

Variable F : format.
Hypothesis HF : nearest F.






Lemma is_zero_false x : x <> 0 -> is_zero x = false.
Proof. intros H. unfold is_zero. destruct (Req_dec_T x 0); congruence. Qed.

Lemma is_zero_true x : x = 0 -> is_zero x = true.
Proof. intros H. unfold is_zero. destruct (Req_dec_T x 0); congruence. Qed.

Lemma is_neg_false x : 0 <= x -> is_neg x = false.
Proof. intros H. unfold is_neg. destruct (Rlt_dec x 0); [lra|reflexivity]. Qed.

(** [y] is [+1] or [-1], the sign bit set on the labels that are not
    positive. *)
Lemma label_y_eq l : label_y l = Num (negb (fpos l)) 1.
Proof. unfold label_y, one. destruct (fpos l); reflexivity. Qed.








End FloatFacts.

Section FloatLoops.

Lemma label_loop_f_length f label i p q :
  label_loop_f f label i p = Ok q -> length q = length p.
Proof.
  revert i q. induction p as [|pi p IH]; intros i q; simpl.
  - intros [= <-]. reflexivity.
  - unfold at_. destruct (label !! i); simpl; try discriminate.
    destruct (label_loop_f f label (S i) p) eqn:E; simpl; try discriminate.
    intros [= <-]. simpl. f_equal. eauto.
Qed.


End FloatLoops.

(** ** The scenario with an overflow *)

Section FloatScenario.
#[local] Open Scope R_scope.

Lemma unrounded_nearest : nearest unrounded.
Proof.
  constructor; cbn [rnd fmax eps unrounded]; intros; try lra.
  apply IZR_le. apply Z.leb_le. reflexivity.
Qed.










End FloatScenario.

(** ** The exact transforms as the floating-point ones without rounding *)

Section Unrounded.
#[local] Open Scope R_scope.

Lemma fmax_unrounded_2 : 2 <= fmax unrounded.
Proof. cbn [fmax unrounded]. apply IZR_le, Z.leb_le. reflexivity. Qed.

Lemma round_unrounded s x :
  x <= fmax unrounded -> round unrounded s x = Num s x.
Proof.
  intros H. unfold round. cbn [rnd unrounded].
  destruct (Rlt_dec _ _); [lra | reflexivity].
Qed.

Lemma value_of_R x : value (is_neg x) (Rabs x) = x.
Proof.
  unfold value, is_neg. destruct (Rlt_dec x 0).
  - rewrite Rabs_left by lra. ring.
  - apply Rabs_pos_eq. lra.
Qed.

Lemma value_xorb s s' m m' :
  value (xorb s s') (m * m') = value s m * value s' m'.
Proof. destruct s, s'; unfold value; simpl; ring. Qed.

Lemma value_negb s m : value (negb s) m = - value s m.
Proof. destruct s; unfold value; simpl; ring. Qed.

Lemma value_abs s m : 0 <= m -> Rabs (value s m) = m.
Proof.
  intros H. destruct s; unfold value.
  - rewrite Rabs_Ropp. apply Rabs_pos_eq, H.
  - apply Rabs_pos_eq, H.
Qed.

Lemma fmul_exact s m s' m' :
  m * m' <= fmax unrounded ->
  fmul unrounded (Num s m) (Num s' m') = Num (xorb s s') (m * m').
Proof. intros H. cbn [fmul]. apply round_unrounded, H. Qed.

Lemma fadd_exact s m s' m' :
  Rabs (value s m + value s' m') <= fmax unrounded ->
  exists s2 m2,
    fadd unrounded (Num s m) (Num s' m') = Num s2 m2 /\
    0 <= m2 /\ value s2 m2 = value s m + value s' m'.
Proof.
  intros H. cbn [fadd].
  destruct (Req_dec_T (value s m + value s' m') 0) as [Hz|Hz].
  - rewrite (is_zero_true _ Hz). exists (s && s'), 0.
    split; [reflexivity|]. split; [lra|]. rewrite Hz.
    destruct (s && s'); unfold value; ring.
  - rewrite (is_zero_false _ Hz). rewrite round_unrounded by exact H.
    eexists _, _. split; [reflexivity|]. split; [apply Rabs_pos|].
    apply value_of_R.
Qed.

Lemma label_y_of_R l :
  value (negb (fpos (of_R l))) 1 = label_sign l.
Proof.
  unfold fpos, of_R. rewrite value_of_R. unfold label_sign, value.
  destruct (Rlt_dec 0 l); simpl; ring.
Qed.

(** Where the exponential does not overflow, the first loop in the
    unrounded format computes [tau_step]. *)
Lemma tau_step_f_exact l x :
  Rabs x <= fmax unrounded ->
  1 + exp (label_sign l * x) <= fmax unrounded ->
  exists s m,
    tau_step_f unrounded (of_R l) (of_R x) = Num s m /\
    value s m = tau_step l x.
Proof.
  intros Hx He. unfold tau_step_f. rewrite label_y_eq.
  cbn [fneg]. rewrite Bool.negb_involutive.
  set (b := fpos (of_R l)).
  pose proof (label_y_of_R l) as Hy. fold b in Hy.
  unfold of_R.
  rewrite fmul_exact by (rewrite Rmult_1_l; exact Hx).
  cbn [fexp]. rewrite value_xorb, Hy, value_of_R.
  pose proof (exp_pos (label_sign l * x)) as Hpos.
  rewrite round_unrounded by lra.
  unfold one. cbn [fadd value].
  rewrite is_zero_false by lra.
  rewrite is_neg_false by lra.
  rewrite Rabs_pos_eq by lra.
  rewrite round_unrounded by exact He.
  cbn [fdiv]. rewrite is_zero_false by lra.
  assert (Hq : 1 / (1 + exp (label_sign l * x)) <= 1).
  { apply (Rmult_le_reg_r (1 + exp (label_sign l * x))); [lra|].
    field_simplify; lra. }
  pose proof fmax_unrounded_2.
  rewrite round_unrounded by lra.
  eexists _, _. split; [reflexivity|].
  replace (xorb b false) with b by (destruct b; reflexivity).
  unfold tau_step. fold (label_sign l).
  set (e := exp (label_sign l * x)) in *. clearbody e b.
  rewrite <- Hy. destruct b; unfold value; simpl; field; lra.
Qed.

(** The second loop in the unrounded format computes [curv_step]. *)
Lemma curv_step_f_exact l t :
  Rabs t <= 1 ->
  exists s m,
    curv_step_f unrounded (of_R l) (of_R t) = Num s m /\
    value s m = curv_step l t.
Proof.
  intros Ht. unfold curv_step_f. rewrite label_y_eq.
  cbn [fneg]. rewrite Bool.negb_involutive.
  set (b := fpos (of_R l)).
  pose proof (label_y_of_R l) as Hy. fold b in Hy.
  rewrite value_negb in Hy.
  pose proof fmax_unrounded_2 as H2.
  unfold of_R.
  rewrite !fmul_exact by (rewrite Rmult_1_l; lra).
  set (s1 := xorb b (is_neg t)). set (m1 := 1 * Rabs t).
  assert (Hm1 : 0 <= m1 <= 1).
  { subst m1. pose proof (Rabs_pos t). lra. }
  assert (Hv1 : value s1 m1 = - label_sign l * t).
  { subst s1 m1. rewrite value_xorb, value_of_R, <- Hy. ring. }
  unfold fsub, one. cbn [fneg].
  assert (Hb : Rabs (value false 1 + value (negb s1) m1) <= fmax unrounded).
  { rewrite value_negb. unfold value at 1.
    apply Rle_trans with 2; [|exact H2].
    apply Rabs_le.
    assert (- m1 <= value s1 m1 <= m1).
    { destruct s1; unfold value; lra. }
    lra. }
  destruct (fadd_exact false 1 (negb s1) m1 Hb) as (s2 & m2 & -> & Hm2 & Hv2).
  assert (Hm2' : m2 <= 2).
  { rewrite <- (value_abs s2 m2 Hm2), Hv2, value_negb. unfold value at 1.
    assert (- m1 <= value s1 m1 <= m1).
    { destruct s1; unfold value; lra. }
    apply Rabs_le. lra. }
  assert (Hprod : m1 * m2 <= fmax unrounded).
  { apply Rle_trans with (1 * 2); [|lra].
    apply Rmult_le_compat; lra. }
  rewrite fmul_exact by exact Hprod.
  eexists _, _. split; [reflexivity|].
  rewrite value_xorb, Hv2, value_negb, Hv1. unfold value at 1.
  unfold curv_step. fold (label_sign l). ring.
Qed.

End Unrounded.

(** ** More runs of the scenario *)

Section MoreRuns.
#[local] Open Scope R_scope.

Lemma shift_loop_defined h :
  int_max ∉ h -> shift_loop h = Ok (shifted <$> h).
Proof.
  induction h as [|z h IH]; intros H; [reflexivity|].
  apply not_elem_of_cons in H as [Hz Hh].
  cbn [shift_loop fmap list_fmap]. rewrite (IH Hh).
  unfold shift_pos, shifted.
  destruct (0 <=? z)%Z; [|reflexivity].
  destruct (Z.eqb_spec z int_max); [congruence | reflexivity].
Qed.

Lemma diag_after_nf size offs idx vals lab pred gp g0 :
  diag_after size offs idx vals lab pred gp g0 <> Fatal.
Proof.
  unfold diag_after, first_order.
  apply rbind_nf.
  - apply rbind_nf; [apply label_loop_nf|]. intros tau.
    apply rbind_nf; [apply times_updates_nf|]. intros us.
    apply rbind_nf; [apply accumulate_nf | discriminate].
  - intros fo. apply rbind_nf; [apply shift_loop_nf|]. intros h.
    apply rbind_nf.
    { unfold squares. destruct vals as [v|]; [|discriminate].
      apply rbind_nf; [apply at_nf|]. intros start.
      apply rbind_nf; [apply at_nf|]. intros stop.
      destruct (stop <? start)%Z; [discriminate|].
      apply rbind_nf; [apply square_loop_nf | discriminate]. }
    intros xx. apply rbind_nf; [apply label_loop_nf|]. intros p.
    apply rbind_nf; [apply times_updates_nf|]. intros us.
    apply accumulate_nf.
Qed.

(** With [compute_diag_hession] set the reading of a call is the
    diagonal one, whatever the other flag and the number of
    parameters. *)
Lemma grad_after_diag cfg psize size offs idx vals lab pred gp g0 :
  compute_diag_hession cfg <> 0%Z ->
  grad_after cfg psize size offs idx vals lab pred gp g0 =
  diag_after size offs idx vals lab pred gp g0.
Proof.
  intros Hd. apply Z.eqb_neq in Hd. unfold grad_after, diag_after.
  rewrite Hd. reflexivity.
Qed.

Lemma square_loop_defined v start n : forall i,
  (i + n + start <= length v)%nat ->
  exists sq, square_loop v start i n = Ok sq.
Proof.
  induction n as [|n IH]; intros i H; simpl; [eauto|].
  unfold at_. destruct (lookup_lt_is_Some_2 v (i + start)) as [x ->]; [lia|].
  simpl. destruct (IH (S i)) as [sq ->]; [lia|]. simpl. eauto.
Qed.

Lemma squares_defined size offs vals :
  value_range size offs vals -> exists xx, squares size offs vals = Ok xx.
Proof.
  unfold value_range, squares. destruct vals as [v|]; [|eauto].
  intros (start & stop & H0 & H1 & Hle & Hlen).
  unfold at_. rewrite H0, H1. simpl.
  destruct (Z.ltb_spec stop start) as [Hlt|_]; [lia|].
  destruct (square_loop_defined v (Z.to_nat start) (Z.to_nat (stop - start))
              0) as [sq ->]; [lia|].
  simpl. eauto.
Qed.

(** A loop over the labels that is defined is defined for every array of
    the same length. *)
Lemma label_loop_defined_same f g lab p : forall i q p',
  label_loop f lab i p = Ok q ->
  length p' = length p ->
  exists q', label_loop g lab i p' = Ok q'.
Proof.
  induction p as [|pi p IH]; intros i q p' H Hlen.
  - destruct p'; [simpl; eauto | discriminate].
  - destruct p' as [|pi' p']; [discriminate|]. simpl in *.
    unfold at_ in *. destruct (lab !! i) as [l|]; simpl in *;
      try discriminate.
    destruct (label_loop f lab (S i) p) as [q0| |] eqn:E; simpl in H;
      try discriminate.
    destruct (IH (S i) q0 p' E) as [q' ->]; [lia|]. simpl. eauto.
Qed.

(** The call of the upper bound is the first-order call, when the
    preparation of the curvature stays in bounds. *)
Lemma upper_run cfg D param g s a0 ll lab offs idx vals g0 :
  compute_diag_hession cfg = 0%Z ->
  compute_upper_diag_hession cfg <> 0%Z ->
  length param = 3%nat ->
  param !! 0%nat = Some a0 ->
  ints s !! RowBlock.offset D = Some offs ->
  ints s !! RowBlock.index D = Some idx ->
  RowBlock.label D = Some ll ->
  reals s !! ll = Some lab ->
  ll <> g ->
  RowBlock.value D <> Some g ->
  value_view s D vals ->
  reals s !! g = Some g0 ->
  int_max ∉ int_data (grad_pos_of param) s ->
  value_range (RowBlock.size D) offs vals ->
  CalcGrad cfg D param (Some g) s =
  CalcGrad cfg_first_order D param (Some g) s.
Proof.
  intros Hd Hu Hlen Hp0 Hoffs Hidx Hll Hlab Hllg Hvg Hval Hg Hmax Hrange.
  assert (Hps : psize_of param = 3%Z) by (rewrite psize_small; lia).
  assert (Hps' : (1 <= psize_of param <= 3)%Z) by lia.
  rewrite (CalcGrad_run cfg_first_order D param g s a0 ll lab offs idx
             vals g0) by assumption.
  rewrite (CalcGrad_run cfg D param g s a0 ll lab offs idx vals g0)
    by assumption.
  unfold grad_after.
  destruct (first_order _ _ _ _ _ _ _ _) as [[tau g1]| |] eqn:Efo;
    try reflexivity.
  cbn [rbind fst snd].
  cbn [compute_diag_hession compute_upper_diag_hession cfg_first_order
         Z.eqb andb].
  rewrite Hd, Hps.
  replace (compute_upper_diag_hession cfg =? 0)%Z with false
    by (symmetry; apply Z.eqb_neq; exact Hu).
  cbn [Z.eqb andb negb].
  rewrite (shift_loop_defined _ Hmax). cbn [rbind].
  destruct (squares_defined _ _ _ Hrange) as [xx ->]. cbn [rbind].
  unfold first_order in Efo.
  destruct (label_loop tau_step lab 0 (real_data a0 s)) as [tau'| |]
    eqn:Et; try discriminate.
  cbn [rbind] in Efo.
  destruct (SpMV.times_updates offs idx vals tau' _ _ _ _) as [us1| |];
    try discriminate.
  cbn [rbind] in Efo.
  destruct (SpMV.accumulate g0 us1) as [g1'| |]; try discriminate.
  injection Efo as -> ->.
  destruct (label_loop_defined_same tau_step curv_step lab _ 0 _ tau Et)
    as [p ->]; [apply (label_loop_length _ _ _ _ _ Et)|].
  reflexivity.
Qed.

Lemma scen_diag_after :
  diag_after 2 [0; 2; 4]%Z [0; 1; 0; 1]%Z (Some [1; 1; 1; 1])
    [1; -1] [0; 0] [0; 2]%Z [0; 0; 0; 0] = Ok [0; 1/2; 0; 1/2].
Proof. rewrite <- (grad_after_diag cfg_diag 2) by discriminate.
  exact scen_grad_diag. Qed.

Lemma scen_grad_first_filled :
  grad_after cfg_first_order 3 2 [0; 2; 4]%Z [0; 1; 0; 1]%Z
    (Some [1; 1; 1; 1]) [1; 1] [0; 0] [0; 2]%Z [10; 20; 30; 40]
  = Ok [9; 20; 29; 40].
Proof.
  unfold grad_after, first_order. simpl. rewrite ?tau_pos.
  repeat f_equal; lra.
Qed.

(** The first-order call on an output that is not zero, through the
    positions [[0; 2]]: the Hessian slots 1 and 3 are no gradient
    slots. *)
Lemma scen_run_first_filled :
  CalcGrad cfg_first_order scen_block
    [Some 3%positive; Some 3%positive; Some 4%positive]
    (Some 5%positive) (scen_done [1; 1] [10; 20; 30; 40]) =
  Ok (tt, scen_done [1; 1] [9; 20; 29; 40]).
Proof.
  rewrite (CalcGrad_run cfg_first_order scen_block _ 5%positive _
             (Some 3%positive) 2%positive [1; 1] [0; 2; 4]%Z
             [0; 1; 0; 1]%Z (Some [1; 1; 1; 1]) [10; 20; 30; 40]);
    [ | split; discriminate | reflexivity | reflexivity | reflexivity
      | reflexivity | reflexivity | discriminate | discriminate
      | exists [1; 1; 1; 1]; split; reflexivity | reflexivity ].
  change (real_data _ _) with [0; 0].
  change (int_data _ _) with [0; 2]%Z.
  change (psize_of _) with 3%Z.
  change (RowBlock.size scen_block) with 2%nat.
  rewrite scen_grad_first_filled.
  unfold put_real, scen_done. cbn [rmap rbind reals ints].
  rewrite insert_insert_eq. reflexivity.
Qed.

(** [Predict] with [delta_w = [2; 4]] on a zero [pred]. *)
Lemma scen_predict_delta :
  Predict scen_block [Some 4%positive] (Some 3%positive)
    (scen_pred [2; 4] [0; 0]) = Ok (tt, scen_pred [2; 4] [6; 6]).
Proof.
  rewrite (Predict_run _ _ _ _ (Some 4%positive))
    by first [reflexivity | rewrite psize_small by (simpl; lia); simpl; lia].
  change (real_data (Some 4%positive) _) with [2; 4].
  change (real_data (Some 3%positive) _) with [0; 0].
  change (int_data (w_pos_of _) _) with (@nil Z).
  change (int_data (Some (RowBlock.offset scen_block)) _)
    with [0; 2; 4]%Z.
  change (int_data (Some (RowBlock.index scen_block)) _)
    with [0; 1; 0; 1]%Z.
  change (block_values scen_block _) with (Some [1; 1; 1; 1]).
  match goal with
  | |- match ?r with _ => _ end = _ =>
      replace r with (@Ok (list R) [6; 6])
        by (simpl; repeat f_equal; lra)
  end.
  unfold write_real, scen_pred. cbn [reals ints].
  rewrite alter_insert_eq. reflexivity.
Qed.

End MoreRuns.

(** * The claims *)

#[local] Open Scope R_scope.

(** C1. The end-to-end scenario: a block of two rows and two columns with
    [value = [1,1,1,1]], [label = [+1,-1]], [pred = [0,0]] and
    [delta_w = [0,0]]. [Predict] leaves [pred] (and the whole store) as it
    was; the first loop of [CalcGrad] computes [tau = [-1/2, 1/2]]; the
    first-order call adds a gradient of 0 to each column, leaving the
    zero output unchanged; the second loop computes the curvature weight
    [1/4] for both rows; [h_pos] is [grad_pos] shifted by one; and with
    [compute_diag_hession = 1] the call leaves, for each column, the
    gradient 0 in its [grad_pos] slot and the sum of the two weights,
    [1/2], in its [h_pos] slot. *)
Theorem C1_end_to_end_scenario :
  Predict scen_block [Some 4%positive] (Some 3%positive)
    (scen_store [1; -1]) = Ok (tt, scen_store [1; -1]) /\
  real_data (Some 3%positive) (scen_store [1; -1]) = [0; 0] /\
  label_loop tau_step [1; -1] 0 [0; 0] = Ok [-1/2; 1/2] /\
  CalcGrad cfg_first_order scen_block [Some 3%positive; Some 3%positive]
    (Some 5%positive) (scen_store [1; -1]) = Ok (tt, scen_store [1; -1]) /\
  real_data (Some 5%positive) (scen_store [1; -1]) = [0; 0; 0; 0] /\
  label_loop curv_step [1; -1] 0 [-1/2; 1/2] = Ok [1/4; 1/4] /\
  shift_loop [0; 2]%Z = Ok [1; 3]%Z /\
  CalcGrad cfg_diag scen_block [Some 3%positive; Some 3%positive]
    (Some 5%positive) (scen_store [1; -1]) =
  Ok (tt, scen_done [1; -1] [0; 1/2; 0; 1/2]) /\
  real_data (Some 5%positive) (scen_done [1; -1] [0; 1/2; 0; 1/2])
  = [0; 1/2; 0; 1/2].
Proof.
  split; [exact scen_predict|].
  split; [reflexivity|].
  split; [exact scen_tau_val|].
  split; [exact scen_run_first|].
  split; [reflexivity|].
  split; [exact scen_curv_val|].
  split; [reflexivity|].
  split; [exact scen_run_diag | reflexivity].
Qed.

(** C2, as the claim states it, fails: for a positive label and a zero
    prediction the first loop stores [tau = -1/2], the second loop turns
    it into [1/4], while [tau * (1 - tau)] with [tau] recomputed as in
    the first loop is [-3/4]. *)
Lemma C2_counterexample :
  label_loop tau_step [1] 0 [0] = Ok [tau_step 1 0] /\
  label_loop curv_step [1] 0 [tau_step 1 0] = Ok [1/4] /\
  spec_curv_weight 1 0 = -3/4 /\
  label_loop curv_step [1] 0 [tau_step 1 0] <> Ok [spec_curv_weight 1 0].
Proof.
  assert (Hs : spec_curv_weight 1 0 = -3/4).
  { unfold spec_curv_weight. rewrite tau_pos. lra. }
  assert (Hc : label_loop curv_step [1] 0 [tau_step 1 0] = Ok [1/4]).
  { cbn [label_loop at_ lookup list_lookup rbind rmap].
    rewrite tau_pos, curv_pos. reflexivity. }
  split; [reflexivity|]. split; [exact Hc|]. split; [exact Hs|].
  rewrite Hc, Hs. intros [= H]. lra.
Qed.

(** C2, amended. In the curvature phase nothing is recomputed from
    [pred]: the second loop reads the value [tau_i] the first loop stored
    in [p[i]], takes [t = -y * tau_i], which is the logistic weight
    [1 / (1 + exp (y * pred[i]))], and stores [p_i = t * (1 - t)]. *)
Theorem C2_curvature_weight (lab pred tau p : list R) :
  label_loop tau_step lab 0 pred = Ok tau ->
  label_loop curv_step lab 0 tau = Ok p ->
  forall i x, pred !! i = Some x ->
  exists l,
    lab !! i = Some l /\
    tau !! i = Some (tau_step l x) /\
    - label_sign l * tau_step l x = / (1 + exp (label_sign l * x)) /\
    p !! i = Some ((- label_sign l * tau_step l x)
                   * (1 - - label_sign l * tau_step l x)).
Proof.
  intros Ht Hc i x Hx.
  destruct (label_loop_lookup _ _ _ _ _ _ _ Ht Hx) as (l & Hl & Hti).
  destruct (label_loop_lookup _ _ _ _ _ _ _ Hc Hti) as (l' & Hl' & Hpi).
  simpl in Hl, Hl'. assert (l' = l) as -> by congruence.
  exists l. repeat split; auto.
  rewrite tau_step_eq. pose proof (label_sign_sq l) as Hy.
  replace (- label_sign l * (- label_sign l * / (1 + exp (label_sign l * x))))
    with ((label_sign l * label_sign l) * / (1 + exp (label_sign l * x)))
    by ring.
  rewrite Hy. ring.
Qed.

Lemma C2_curvature_weight_witness :
  label_loop tau_step [1; -1] 0 [0; 0] = Ok [-1/2; 1/2] /\
  label_loop curv_step [1; -1] 0 [-1/2; 1/2] = Ok [1/4; 1/4] /\
  exists l,
    [1; -1] !! 0%nat = Some l /\
    [-1/2; 1/2] !! 0%nat = Some (tau_step l 0) /\
    - label_sign l * tau_step l 0 = / (1 + exp (label_sign l * 0)) /\
    [1/4; 1/4] !! 0%nat = Some ((- label_sign l * tau_step l 0)
                                * (1 - - label_sign l * tau_step l 0)).
Proof.
  pose proof scen_tau_val as Ht.
  pose proof scen_curv_val as Hc.
  split; [exact Ht|]. split; [exact Hc|].
  apply (C2_curvature_weight [1; -1] [0; 0] [-1/2; 1/2] [1/4; 1/4] Ht Hc
           0%nat 0). reflexivity.
Defined.






(** C5. [Predict] accumulates into [pred]: what it leaves there is the
    old content with the contributions [y[k] += a] of the multiply
    primitive applied to it. The accumulation is linear: when the call
    with [delta_w] returns, so do two calls in a row with [delta_w / 2],
    and they leave the same [pred] (in exact arithmetic). The output may
    not share its buffer with [delta_w] or with the values of the
    block. *)
Theorem C5_predict_accumulates_linearly
        (D : RowBlock.t) (param : list (option positive))
        (pred : option positive) (s s1 : store) (dw : positive) :
  param !! 0%nat = Some (Some dw) ->
  pred <> Some dw ->
  RowBlock.value D <> Some dw ->
  (pred = None \/ RowBlock.value D <> pred) ->
  Predict D param pred s = Ok (tt, s1) ->
  (exists us,
     SpMV.trans_updates
       (int_data (Some (RowBlock.offset D)) s)
       (int_data (Some (RowBlock.index D)) s)
       (block_values D s) (real_data (Some dw) s)
       (int_data (w_pos_of param) s) [] 0 (RowBlock.size D) = Ok us /\
     SpMV.accumulate (real_data pred s) us = Ok (real_data pred s1)) /\
  exists s2 s3,
    Predict D param pred (halved dw s) = Ok (tt, s2) /\
    Predict D param pred s2 = Ok (tt, s3) /\
    real_data pred s3 = real_data pred s1.
Proof. apply Predict_linear. Qed.

Lemma C5_predict_accumulates_linearly_witness :
  Predict scen_block [Some 4%positive] (Some 3%positive)
    (scen_pred [2; 4] [0; 0]) = Ok (tt, scen_pred [2; 4] [6; 6]) /\
  real_data (Some 4%positive) (halved 4%positive (scen_pred [2; 4] [0; 0]))
  = [half 2; half 4] /\
  real_data (Some 3%positive) (scen_pred [2; 4] [6; 6]) = [6; 6] /\
  exists s2 s3,
    Predict scen_block [Some 4%positive] (Some 3%positive)
      (halved 4%positive (scen_pred [2; 4] [0; 0])) = Ok (tt, s2) /\
    Predict scen_block [Some 4%positive] (Some 3%positive) s2
    = Ok (tt, s3) /\
    real_data (Some 3%positive) s3
    = real_data (Some 3%positive) (scen_pred [2; 4] [6; 6]).
Proof.
  split; [exact scen_predict_delta|].
  split; [reflexivity|]. split; [reflexivity|].
  apply (C5_predict_accumulates_linearly scen_block [Some 4%positive]
           (Some 3%positive) (scen_pred [2; 4] [0; 0])
           (scen_pred [2; 4] [6; 6]) 4%positive);
    [reflexivity | discriminate | discriminate
     | right; discriminate | exact scen_predict_delta].
Defined.

(** C6, as the claim states it, fails in its last part: with both flags
    set and a single parameter the call returns. *)
Lemma C6_counterexample :
  compute_upper_diag_hession cfg_diag <> 0%Z /\
  length [Some 3%positive] <> 3%nat /\
  psize_of [Some 3%positive] <> 3%Z /\
  CalcGrad cfg_diag scen_block [Some 3%positive] (Some 5%positive)
    (scen_store [1; -1]) = Ok (tt, scen_done [1; -1] [1/2; 1/2; 0; 0]) /\
  CalcGrad cfg_diag scen_block [Some 3%positive] (Some 5%positive)
    (scen_store [1; -1]) <> Fatal.
Proof.
  split; [discriminate|]. split; [discriminate|]. split; [discriminate|].
  split; [exact scen_run_identity|].
  rewrite scen_run_identity. discriminate.
Qed.

(** C6, amended. [psize] is the size of the parameter list (of fewer
    than 2^31 entries). [CalcGrad] ends with a fatal check failure
    whenever [psize] is outside [[1,3]] or [label] is null. When
    [compute_upper_diag_hession] is set and [compute_diag_hession] is
    not, a call with [psize] other than 3 never returns: it ends with a
    fatal check failure, unless an access outside an array came
    first. *)
Theorem C6_fatal_preconditions
        (cfg : LogitLossDeltaParam) (D : RowBlock.t)
        (param : list (option positive)) (grad : option positive)
        (s : store) :
  ((Z.of_nat (length param) < 2147483648)%Z ->
   psize_of param = Z.of_nat (length param)) /\
  ((psize_of param < 1)%Z \/ (3 < psize_of param)%Z
   \/ RowBlock.label D = None ->
   CalcGrad cfg D param grad s = Fatal) /\
  (compute_diag_hession cfg = 0%Z ->
   compute_upper_diag_hession cfg <> 0%Z ->
   psize_of param <> 3%Z ->
   CalcGrad cfg D param grad s = Fatal \/
   CalcGrad cfg D param grad s = Undef).
Proof.
  split; [apply psize_small|]. split.
  - intros H. unfold CalcGrad. rewrite bind_eq. unfold CHECK at 1.
    destruct (1 <=? psize_of param)%Z eqn:E1; [|reflexivity].
    apply Z.leb_le in E1.
    rewrite bind_eq. unfold CHECK at 1.
    destruct (psize_of param <=? 3)%Z eqn:E3; [|reflexivity].
    apply Z.leb_le in E3.
    destruct H as [H | [H | H]]; [lia | lia |].
    rewrite bind_eq. unfold param_at at 1, at_.
    destruct (psize_lookup param 0) as [a0 Ha]; [lia | lia |].
    rewrite Ha. cbn [lift rmap rbind].
    rewrite bind_eq. unfold CopyFrom_real, alloc_real, read_real.
    cbn [bind]. rewrite bind_eq, H. reflexivity.
  - intros Hd Hu Hlen.
    destruct (CalcGrad cfg D param grad s) as [[[] s']| |] eqn:H; auto.
    exfalso. unfold CalcGrad in H.
    apply bind_Ok in H as (u1 & s1 & H1 & H).
    apply bind_Ok in H as (u2 & s2 & H2 & H).
    apply bind_Ok in H as (a0 & s3 & H3 & H).
    apply bind_Ok in H as (pl & s4 & H4 & H).
    apply bind_Ok in H as (ll & s5 & H5 & H).
    apply bind_Ok in H as (u6 & s6 & H6 & H).
    apply bind_Ok in H as (gp & s7 & H7 & H).
    apply bind_Ok in H as (u8 & s8 & H8 & H).
    rewrite Hd in H.
    replace (compute_upper_diag_hession cfg =? 0)%Z with false in H
      by (symmetry; apply Z.eqb_neq; exact Hu).
    cbn [Z.eqb andb] in H.
    apply bind_Ok in H as (hl & sh & Hh & H).
    apply bind_Ok in H as (? & sh' & Hsh & H).
    apply bind_Ok in H as (xx & sx & Hx & H).
    apply bind_Ok in H as (? & sc & Hc & H).
    apply bind_Ok in H as (? & sd & Hsd & H).
    unfold hessian_step in Hsd. rewrite Hd in Hsd. cbn [Z.eqb negb] in Hsd.
    apply bind_Ok in Hsd as (? & ? & Hchk & _).
    apply CHECK_Ok in Hchk as [Hchk _]. apply Z.eqb_eq in Hchk. lia.
Qed.

Lemma C6_fatal_preconditions_witness :
  ((psize_of (@nil (option positive)) < 1)%Z
   \/ (3 < psize_of (@nil (option positive)))%Z
   \/ RowBlock.label scen_block = None) /\
  CalcGrad cfg_upper scen_block [] (Some 5%positive) (scen_store [1; -1])
  = Fatal /\
  compute_diag_hession cfg_upper = 0%Z /\
  compute_upper_diag_hession cfg_upper <> 0%Z /\
  psize_of [Some 3%positive] <> 3%Z /\
  (CalcGrad cfg_upper scen_block [Some 3%positive] (Some 5%positive)
     (scen_store [1; -1]) = Fatal \/
   CalcGrad cfg_upper scen_block [Some 3%positive] (Some 5%positive)
     (scen_store [1; -1]) = Undef) /\
  CalcGrad cfg_upper scen_block [Some 3%positive] (Some 5%positive)
    (scen_store [1; -1]) = Fatal.
Proof.
  assert (H0 : (psize_of (@nil (option positive)) < 1)%Z
               \/ (3 < psize_of (@nil (option positive)))%Z
               \/ RowBlock.label scen_block = None)
    by (left; reflexivity).
  split; [exact H0|].
  split.
  { exact (proj1 (proj2 (C6_fatal_preconditions cfg_upper scen_block []
                           (Some 5%positive) (scen_store [1; -1]))) H0). }
  split; [reflexivity|]. split; [discriminate|]. split; [discriminate|].
  split; [|exact scen_run_upper_fatal].
  apply (proj2 (proj2 (C6_fatal_preconditions cfg_upper scen_block
                         [Some 3%positive] (Some 5%positive)
                         (scen_store [1; -1]))));
    [reflexivity | discriminate | discriminate].
Defined.

(** C7. With both [compute_diag_hession] and [compute_upper_diag_hession]
    set, a call with one, two or three parameters is legal and takes the
    path of the exact diagonal Hessian, and that path only: on live,
    distinct buffers the call leaves in the output the gradient followed
    by the Hessian accumulated through [h_pos]; it fails no check,
    whatever the number of parameters, since the branch of the upper
    bound with its check is not taken; and it is the call with
    [compute_diag_hession] alone. *)
Theorem C7_diagonal_takes_precedence
        (cfg : LogitLossDeltaParam) (D : RowBlock.t)
        (param : list (option positive)) (g : positive) (s : store)
        (a0 : option positive) (ll : positive) (lab : list R)
        (offs idx : list Z) (vals : option (list R)) (g0 : list R) :
  compute_diag_hession cfg <> 0%Z ->
  compute_upper_diag_hession cfg <> 0%Z ->
  (1 <= psize_of param <= 3)%Z ->
  param !! 0%nat = Some a0 ->
  ints s !! RowBlock.offset D = Some offs ->
  ints s !! RowBlock.index D = Some idx ->
  RowBlock.label D = Some ll ->
  reals s !! ll = Some lab ->
  ll <> g ->
  RowBlock.value D <> Some g ->
  value_view s D vals ->
  reals s !! g = Some g0 ->
  CalcGrad cfg D param (Some g) s =
  put_real g
    (diag_after (RowBlock.size D) offs idx vals lab (real_data a0 s)
       (int_data (grad_pos_of param) s) g0) s /\
  CalcGrad cfg D param (Some g) s <> Fatal /\
  CalcGrad cfg D param (Some g) s =
  CalcGrad {| compute_diag_hession := compute_diag_hession cfg;
              compute_upper_diag_hession := 0 |} D param (Some g) s /\
  forall psize XX p h_pos,
    hessian_step cfg psize param XX p h_pos (Some g) =
    SpMV.Times XX (Some p) (Some g) None (Some h_pos).
Proof.
  intros Hd Hu Hlen Hp0 Hoffs Hidx Hll Hlab Hllg Hvg Hval Hg.
  assert (E : (compute_diag_hession cfg =? 0)%Z = false)
    by (apply Z.eqb_neq; exact Hd).
  assert (Hrun : CalcGrad cfg D param (Some g) s =
                 put_real g
                   (diag_after (RowBlock.size D) offs idx vals lab
                      (real_data a0 s) (int_data (grad_pos_of param) s) g0)
                   s).
  { rewrite (CalcGrad_run cfg D param g s a0 ll lab offs idx vals g0)
      by assumption.
    rewrite grad_after_diag by exact Hd. reflexivity. }
  split; [exact Hrun|]. split.
  - rewrite Hrun. unfold put_real, rmap.
    pose proof (diag_after_nf (RowBlock.size D) offs idx vals lab
                  (real_data a0 s) (int_data (grad_pos_of param) s) g0)
      as Hnf.
    destruct (diag_after _ _ _ _ _ _ _ _); [discriminate | | discriminate].
    contradiction.
  - split.
    + unfold CalcGrad, hessian_step.
      cbn [compute_diag_hession compute_upper_diag_hession].
      rewrite E. reflexivity.
    + intros psize XX p h_pos. unfold hessian_step. rewrite E.
      reflexivity.
Qed.

Lemma C7_diagonal_takes_precedence_witness :
  compute_diag_hession cfg_diag <> 0%Z /\
  compute_upper_diag_hession cfg_diag <> 0%Z /\
  psize_of [Some 3%positive; Some 3%positive] = 2%Z /\
  diag_after (RowBlock.size scen_block) [0; 2; 4]%Z [0; 1; 0; 1]%Z
    (Some [1; 1; 1; 1]) [1; -1] [0; 0] [0; 2]%Z [0; 0; 0; 0]
  = Ok [0; 1/2; 0; 1/2] /\
  CalcGrad cfg_diag scen_block [Some 3%positive; Some 3%positive]
    (Some 5%positive) (scen_store [1; -1]) =
  put_real 5%positive
    (diag_after (RowBlock.size scen_block) [0; 2; 4]%Z [0; 1; 0; 1]%Z
       (Some [1; 1; 1; 1]) [1; -1]
       (real_data (Some 3%positive) (scen_store [1; -1]))
       (int_data (grad_pos_of [Some 3%positive; Some 3%positive])
          (scen_store [1; -1])) [0; 0; 0; 0])
    (scen_store [1; -1]).
Proof.
  split; [discriminate|]. split; [discriminate|]. split; [reflexivity|].
  split; [exact scen_diag_after|].
  assert (Hv : value_view (scen_store [1; -1]) scen_block
                 (Some [1; 1; 1; 1])).
  { exists [1; 1; 1; 1]. split; reflexivity. }
  apply (C7_diagonal_takes_precedence cfg_diag scen_block
           [Some 3%positive; Some 3%positive] 5%positive
           (scen_store [1; -1]) (Some 3%positive) 2%positive [1; -1]
           [0; 2; 4]%Z [0; 1; 0; 1]%Z (Some [1; 1; 1; 1]) [0; 0; 0; 0]);
    [ discriminate | discriminate | split; discriminate | reflexivity
    | reflexivity | reflexivity | reflexivity | reflexivity | discriminate
    | discriminate | exact Hv | reflexivity ].
Defined.

(** C8, as the claim states it, fails when a Hessian slot is also a
    gradient slot. With an empty position mapping as second parameter
    both mappings are the identity: slot 0 is the Hessian slot of row 0
    and its gradient slot, and the call moves it from 0 to -1. *)
Lemma C8_counterexample :
  compute_diag_hession cfg_upper = 0%Z /\
  compute_upper_diag_hession cfg_upper <> 0%Z /\
  hessian_slot
    (int_data (grad_pos_of [Some 3%positive; None; Some 4%positive])
       (scen_store [1; 1])) (RowBlock.size scen_block) 0 /\
  CalcGrad cfg_upper scen_block [Some 3%positive; None; Some 4%positive]
    (Some 5%positive) (scen_store [1; 1])
  = Ok (tt, scen_done [1; 1] [-1; -1; 0; 0]) /\
  real_data (Some 5%positive) (scen_store [1; 1]) !! 0%nat = Some 0 /\
  real_data (Some 5%positive) (scen_done [1; 1] [-1; -1; 0; 0]) !! 0%nat
  = Some (-1) /\
  real_data (Some 5%positive) (scen_done [1; 1] [-1; -1; 0; 0]) !! 0%nat
  <> real_data (Some 5%positive) (scen_store [1; 1]) !! 0%nat.
Proof.
  split; [reflexivity|]. split; [discriminate|].
  split.
  { exists [], 0%nat. repeat split. simpl. lia. }
  split; [exact scen_run_upper|].
  split; [reflexivity|]. split; [reflexivity|].
  change (Some (-1) <> Some 0). intros [= H]. lra.
Qed.

(** C8, amended. A call with [compute_upper_diag_hession] set,
    [compute_diag_hession] unset, three parameters and a label does not
    crash and updates no curvature. It fails no check. On live, distinct
    buffers, with no position [INT_MAX] and the offsets of the block
    within its values, it is the first-order call: it returns whenever
    that call returns, and it leaves the store that call leaves. So
    every output slot that is not the gradient slot of a row, and with
    it every Hessian slot that is not also a gradient slot, keeps its
    value. *)
Theorem C8_upper_bound_is_a_stub
        (cfg : LogitLossDeltaParam) (D : RowBlock.t)
        (param : list (option positive)) (grad : option positive)
        (s : store) :
  compute_diag_hession cfg = 0%Z ->
  compute_upper_diag_hession cfg <> 0%Z ->
  length param = 3%nat ->
  RowBlock.label D <> None ->
  CalcGrad cfg D param grad s <> Fatal /\
  (forall s',
     CalcGrad cfg D param grad s = Ok (tt, s') ->
     CalcGrad cfg_first_order D param grad s = Ok (tt, s') /\
     forall k,
       ~ gradient_slot (int_data (grad_pos_of param) s) (RowBlock.size D) k ->
       real_data grad s' !! k = real_data grad s !! k) /\
  (forall g a0 ll lab offs idx vals g0 s1,
     grad = Some g ->
     param !! 0%nat = Some a0 ->
     ints s !! RowBlock.offset D = Some offs ->
     ints s !! RowBlock.index D = Some idx ->
     RowBlock.label D = Some ll ->
     reals s !! ll = Some lab ->
     ll <> g ->
     RowBlock.value D <> Some g ->
     value_view s D vals ->
     reals s !! g = Some g0 ->
     int_max ∉ int_data (grad_pos_of param) s ->
     value_range (RowBlock.size D) offs vals ->
     CalcGrad cfg D param grad s = CalcGrad cfg_first_order D param grad s /\
     (CalcGrad cfg_first_order D param grad s = Ok (tt, s1) ->
      CalcGrad cfg D param grad s = Ok (tt, s1) /\
      forall k,
        ~ gradient_slot (int_data (grad_pos_of param) s)
            (RowBlock.size D) k ->
        real_data grad s1 !! k = real_data grad s !! k)).
Proof.
  intros Hd Hu Hlen Hlab. split; [|split].
  - apply CalcGrad_three_nf; assumption.
  - intros s' H.
    pose proof (upper_is_first_order _ _ _ _ _ _ Hd Hu H) as H1.
    split; [exact H1|]. intros k Hk.
    eapply first_order_slots; eauto.
  - intros g a0 ll lab offs idx vals g0 s1 -> Hp0 Hoffs Hidx Hll Hl Hllg
      Hvg Hval Hg Hmax Hrange.
    assert (E : CalcGrad cfg D param (Some g) s =
                CalcGrad cfg_first_order D param (Some g) s)
      by (eapply upper_run; eauto).
    split; [exact E|]. intros H1. split.
    + rewrite E. exact H1.
    + intros k Hk. eapply first_order_slots; eauto.
Qed.

Lemma C8_upper_bound_is_a_stub_witness :
  CalcGrad cfg_first_order scen_block
    [Some 3%positive; Some 3%positive; Some 4%positive]
    (Some 5%positive) (scen_done [1; 1] [10; 20; 30; 40])
  = Ok (tt, scen_done [1; 1] [9; 20; 29; 40]) /\
  int_data (grad_pos_of [Some 3%positive; Some 3%positive; Some 4%positive])
    (scen_done [1; 1] [10; 20; 30; 40]) = [0; 2]%Z /\
  shift_loop [0; 2]%Z = Ok [1; 3]%Z /\
  CalcGrad cfg_upper scen_block
    [Some 3%positive; Some 3%positive; Some 4%positive]
    (Some 5%positive) (scen_done [1; 1] [10; 20; 30; 40])
  = Ok (tt, scen_done [1; 1] [9; 20; 29; 40]) /\
  forall k,
    ~ gradient_slot
        (int_data
           (grad_pos_of [Some 3%positive; Some 3%positive; Some 4%positive])
           (scen_done [1; 1] [10; 20; 30; 40]))
        (RowBlock.size scen_block) k ->
    real_data (Some 5%positive) (scen_done [1; 1] [9; 20; 29; 40]) !! k
    = real_data (Some 5%positive) (scen_done [1; 1] [10; 20; 30; 40]) !! k.
Proof.
  split; [exact scen_run_first_filled|].
  split; [reflexivity|]. split; [reflexivity|].
  assert (Hv : value_view (scen_done [1; 1] [10; 20; 30; 40]) scen_block
                 (Some [1; 1; 1; 1])).
  { exists [1; 1; 1; 1]. split; reflexivity. }
  assert (Hr : value_range (RowBlock.size scen_block) [0; 2; 4]%Z
                 (Some [1; 1; 1; 1])).
  { exists 0%Z, 4%Z. repeat split; try reflexivity; simpl; lia. }
  assert (Hm : int_max ∉ int_data
                 (grad_pos_of
                    [Some 3%positive; Some 3%positive; Some 4%positive])
                 (scen_done [1; 1] [10; 20; 30; 40])).
  { change (int_max ∉ [0; 2]%Z). intros H.
    apply elem_of_cons in H as [H|H]; [discriminate|].
    apply elem_of_cons in H as [H|H]; [discriminate|]. inversion H. }
  pose proof (proj2 (proj2 (C8_upper_bound_is_a_stub cfg_upper scen_block
                         [Some 3%positive; Some 3%positive; Some 4%positive]
                         (Some 5%positive)
                         (scen_done [1; 1] [10; 20; 30; 40])
                         eq_refl ltac:(discriminate) eq_refl
                         ltac:(discriminate)))
                5%positive (Some 3%positive) 2%positive [1; 1] [0; 2; 4]%Z
                [0; 1; 0; 1]%Z (Some [1; 1; 1; 1]) [10; 20; 30; 40]
                (scen_done [1; 1] [9; 20; 29; 40])) as H.
  destruct H as [_ H];
    [ reflexivity | reflexivity | reflexivity | reflexivity | reflexivity
    | reflexivity | discriminate | discriminate | exact Hv | reflexivity
    | exact Hm | exact Hr | ].
  exact (H scen_run_first_filled).
Defined.

(** C9. [Predict] and [CalcGrad] change only their output buffer: when a
    call returns, every integer buffer (offsets, indices, position
    mappings) and every real buffer other than the output (the
    predictions [param[0]], the values, the labels, [delta]) holds what
    it held before, and the buffers the call allocated are gone. *)
Theorem C9_only_the_output_changes
        (cfg : LogitLossDeltaParam) (D : RowBlock.t)
        (param : list (option positive)) (out : option positive)
        (s s' : store) :
  Predict D param out s = Ok (tt, s') \/
  CalcGrad cfg D param out s = Ok (tt, s') ->
  ints s' = ints s /\
  forall l, out <> Some l -> reals s' !! l = reals s !! l.
Proof.
  intros [H | H].
  - exact (Predict_frame _ _ _ _ _ _ H).
  - exact (CalcGrad_frame _ _ _ _ _ _ _ H).
Qed.

Lemma C9_only_the_output_changes_witness :
  CalcGrad cfg_diag scen_block [Some 3%positive; Some 3%positive]
    (Some 5%positive) (scen_store [1; -1])
  = Ok (tt, scen_done [1; -1] [0; 1/2; 0; 1/2]) /\
  ints (scen_done [1; -1] [0; 1/2; 0; 1/2]) = ints (scen_store [1; -1]) /\
  forall l, Some 5%positive <> Some l ->
            reals (scen_done [1; -1] [0; 1/2; 0; 1/2]) !! l
            = reals (scen_store [1; -1]) !! l.
Proof.
  split; [exact scen_run_diag|].
  apply (C9_only_the_output_changes cfg_diag scen_block
           [Some 3%positive; Some 3%positive] (Some 5%positive)
           (scen_store [1; -1])).
  right. exact scen_run_diag.
Defined.

(** C10. With a single parameter and [compute_diag_hession] set, [h_pos]
    is the copy of an empty [grad_pos] and stays empty, so both
    multiplies use the identity mapping: row [r] contributes its gradient
    [d1] and its diagonal Hessian [d2] to the same output slot [r], which
    ends up holding its old value plus [d1] plus [d2]. The buffers of
    the block and the output are live and distinct. *)
Theorem C10_gradient_and_hessian_share_slots
        (cfg : LogitLossDeltaParam) (D : RowBlock.t)
        (a0 : option positive) (g ll : positive) (s s' : store)
        (lab : list R) (offs idx : list Z) (vals : option (list R))
        (g0 : list R) :
  compute_diag_hession cfg <> 0%Z ->
  ints s !! RowBlock.offset D = Some offs ->
  ints s !! RowBlock.index D = Some idx ->
  RowBlock.label D = Some ll ->
  reals s !! ll = Some lab ->
  ll <> g ->
  RowBlock.value D <> Some g ->
  value_view s D vals ->
  reals s !! g = Some g0 ->
  CalcGrad cfg D [a0] (Some g) s = Ok (tt, s') ->
  int_data (grad_pos_of [a0]) s = [] /\
  shift_loop (int_data (grad_pos_of [a0]) s) = Ok [] /\
  exists tau p xx us1 us2,
    label_loop tau_step lab 0 (real_data a0 s) = Ok tau /\
    label_loop curv_step lab 0 tau = Ok p /\
    squares (RowBlock.size D) offs vals = Ok xx /\
    SpMV.times_updates offs idx vals tau [] [] 0 (RowBlock.size D)
    = Ok us1 /\
    SpMV.times_updates offs idx xx p [] [] 0 (RowBlock.size D)
    = Ok us2 /\
    forall r, (r < RowBlock.size D)%nat ->
      exists y d1 d2,
        g0 !! r = Some y /\
        us1 !! r = Some (r, d1) /\
        us2 !! r = Some (r, d2) /\
        real_data (Some g) s' !! r = Some (y + d1 + d2).
Proof.
  intros Hd Hoffs Hidx Hll Hlab Hllg Hvg Hval Hg H.
  split; [reflexivity|]. split; [reflexivity|].
  rewrite (CalcGrad_run cfg D [a0] g s a0 ll lab offs idx vals g0) in H
    by first [assumption | reflexivity | split; discriminate].
  change (psize_of [a0]) with 1%Z in H.
  change (int_data _ s) with (@nil Z) in H.
  unfold grad_after, first_order in H.
  destruct (label_loop tau_step lab 0 (real_data a0 s)) as [tau| |] eqn:Et;
    try discriminate. cbn [rbind] in H.
  destruct (SpMV.times_updates offs idx vals tau [] [] 0 (RowBlock.size D))
    as [us1| |] eqn:E1; try discriminate. cbn [rbind] in H.
  destruct (SpMV.accumulate g0 us1) as [g1| |] eqn:A1; try discriminate.
  cbn [rbind fst snd] in H.
  replace (compute_diag_hession cfg =? 0)%Z with false in H
    by (symmetry; apply Z.eqb_neq; exact Hd).
  cbn [andb negb shift_loop rbind] in H.
  destruct (squares (RowBlock.size D) offs vals) as [xx| |] eqn:Ex;
    try discriminate. cbn [rbind] in H.
  destruct (label_loop curv_step lab 0 tau) as [p| |] eqn:Ec;
    try discriminate.
  cbn [rbind] in H.
  destruct (SpMV.times_updates offs idx xx p [] [] 0 (RowBlock.size D))
    as [us2| |] eqn:E2; try discriminate. cbn [rbind] in H.
  destruct (SpMV.accumulate g1 us2) as [g2| |] eqn:A2; try discriminate.
  injection H as <-.
  exists tau, p, xx, us1, us2.
  do 5 (split; [first [assumption | reflexivity]|]).
  intros r Hr.
  pose proof (times_updates_identity _ _ _ _ _ _ _ _ E1) as F1.
  pose proof (times_updates_identity _ _ _ _ _ _ _ _ E2) as F2.
  assert (L1 : length us1 = RowBlock.size D)
    by (rewrite <- (length_map fst), F1; apply length_seq).
  assert (L2 : length us2 = RowBlock.size D)
    by (rewrite <- (length_map fst), F2; apply length_seq).
  rewrite <- L1 in F1. rewrite <- L2 in F2.
  destruct (accumulate_seq _ _ _ _ F1 A1 r) as (y & d1 & Hy & Hu1 & Hg1);
    [lia|].
  destruct (accumulate_seq _ _ _ _ F2 A2 r) as (y' & d2 & Hy' & Hu2 & Hg2);
    [lia|].
  simpl in *. rewrite Hg1 in Hy'. injection Hy' as <-.
  exists y, d1, d2. repeat split; auto.
  unfold real_data. simpl. rewrite lookup_insert_eq. exact Hg2.
Qed.

Lemma C10_gradient_and_hessian_share_slots_witness :
  CalcGrad cfg_diag scen_block [Some 3%positive] (Some 5%positive)
    (scen_store [1; -1]) = Ok (tt, scen_done [1; -1] [1/2; 1/2; 0; 0]) /\
  int_data (grad_pos_of [Some 3%positive]) (scen_store [1; -1]) = [] /\
  shift_loop (int_data (grad_pos_of [Some 3%positive]) (scen_store [1; -1]))
  = Ok [].
Proof.
  split; [exact scen_run_identity|].
  assert (Hv : value_view (scen_store [1; -1]) scen_block
                 (Some [1; 1; 1; 1])).
  { exists [1; 1; 1; 1]. split; reflexivity. }
  pose proof (C10_gradient_and_hessian_share_slots cfg_diag scen_block
                (Some 3%positive) 5%positive 2%positive
                (scen_store [1; -1]) (scen_done [1; -1] [1/2; 1/2; 0; 0])
                [1; -1] [0; 2; 4]%Z [0; 1; 0; 1]%Z (Some [1; 1; 1; 1])
                [0; 0; 0; 0]) as H.
  destruct H as (H1 & H2 & _);
    [discriminate | reflexivity | reflexivity | reflexivity | reflexivity
     | discriminate | discriminate | exact Hv | reflexivity
     | exact scen_run_identity | ].
  split; [exact H1 | exact H2].
Defined.

(** * Further properties of the code *)

(** ** The checks of [Predict] *)

(** X1. [Predict] ends with a fatal check failure whenever [psize] is
    outside [[1,2]]; a list of three parameters, which [CalcGrad]
    accepts, is one. *)
Theorem X1_predict_checks_its_parameters
        (D : RowBlock.t) (param : list (option positive))
        (pred : option positive) (s : store) :
  (psize_of param < 1 \/ 2 < psize_of param)%Z ->
  Predict D param pred s = Fatal.
Proof.
  intros H. unfold Predict. rewrite bind_eq. unfold CHECK at 1.
  destruct (1 <=? psize_of param)%Z eqn:E1; [|reflexivity].
  apply Z.leb_le in E1.
  rewrite bind_eq. unfold CHECK at 1.
  destruct (psize_of param <=? 2)%Z eqn:E2; [|reflexivity].
  apply Z.leb_le in E2. lia.
Qed.

Lemma X1_predict_checks_its_parameters_witness :
  (psize_of [Some 4%positive; None; None] < 1
   \/ 2 < psize_of [Some 4%positive; None; None])%Z /\
  Predict scen_block [Some 4%positive; None; None] (Some 3%positive)
    (scen_store [1; -1]) = Fatal.
Proof.
  assert (H : (psize_of [Some 4%positive; None; None] < 1
               \/ 2 < psize_of [Some 4%positive; None; None])%Z)
    by (right; reflexivity).
  split; [exact H|].
  exact (X1_predict_checks_its_parameters scen_block
           [Some 4%positive; None; None] (Some 3%positive)
           (scen_store [1; -1]) H).
Defined.

(** ** The first loop as the logistic gradient *)

Lemma sigmoid_bounds x : 0 < sigmoid x < 1.
Proof. apply logistic_bounds. Qed.

Lemma sigmoid_compl x : / (1 + exp x) = 1 - sigmoid x.
Proof.
  unfold sigmoid. rewrite exp_Ropp. pose proof (exp_pos x) as He.
  set (e := exp x) in *. field. split; lra.
Qed.

Lemma tau_step_sigmoid l x : tau_step l x = sigmoid x - target l.
Proof.
  rewrite tau_step_eq. unfold target.
  destruct (label_sign_cases l) as [[Hl ->] | [Hl ->]].
  - destruct (Rlt_dec 0 l); [|lra].
    replace (1 * x) with x by ring. rewrite sigmoid_compl. ring.
  - destruct (Rlt_dec 0 l); [lra|].
    replace (-1 * x) with (- x) by ring. unfold sigmoid. ring.
Qed.

(** X2. The first loop of [CalcGrad] stores, for every row, the
    derivative of the logistic loss in the prediction: the logistic
    function of [pred[i]] minus the 0/1 target of the row (1 for a
    positive label, 0 otherwise). *)
Theorem X2_tau_is_sigmoid_minus_target (lab pred tau : list R) :
  label_loop tau_step lab 0 pred = Ok tau ->
  forall i x, pred !! i = Some x ->
  exists l, lab !! i = Some l /\
            tau !! i = Some (sigmoid x - target l).
Proof.
  intros Ht i x Hx.
  destruct (label_loop_lookup _ _ _ _ _ _ _ Ht Hx) as (l & Hl & Hti).
  exists l. split; [exact Hl|]. rewrite Hti, tau_step_sigmoid. reflexivity.
Qed.

Lemma X2_tau_is_sigmoid_minus_target_witness :
  label_loop tau_step [1; -1] 0 [0; 0] = Ok [-1/2; 1/2] /\
  exists l, [1; -1] !! 1%nat = Some l /\
            [-1/2; 1/2] !! 1%nat = Some (sigmoid 0 - target l).
Proof.
  split; [exact scen_tau_val|].
  apply (X2_tau_is_sigmoid_minus_target [1; -1] [0; 0] [-1/2; 1/2]
           scen_tau_val 1%nat 0). reflexivity.
Defined.



Lemma sigmoid_mono x x' : x <= x' -> sigmoid x <= sigmoid x'.
Proof.
  intros H. unfold sigmoid.
  assert (He : exp (- x') <= exp (- x)).
  { destruct H as [H | ->]; [|lra].
    left. apply exp_increasing. lra. }
  pose proof (exp_pos (- x')). pose proof (exp_pos (- x)).
  apply Rinv_le_contravar; lra.
Qed.

(** X4. For a fixed label the value the first loop stores grows with the
    prediction: rows of two prediction arrays with [pred[i] <= pred'[i]]
    get [tau_i <= tau'_i]. *)
Theorem X4_tau_grows_with_the_prediction (lab pred pred' tau tau' : list R) :
  label_loop tau_step lab 0 pred = Ok tau ->
  label_loop tau_step lab 0 pred' = Ok tau' ->
  forall i x x' t t',
    pred !! i = Some x -> pred' !! i = Some x' -> x <= x' ->
    tau !! i = Some t -> tau' !! i = Some t' -> t <= t'.
Proof.
  intros Ht Ht' i x x' t t' Hx Hx' Hle Hti Hti'.
  destruct (label_loop_lookup _ _ _ _ _ _ _ Ht Hx) as (l & Hl & E).
  destruct (label_loop_lookup _ _ _ _ _ _ _ Ht' Hx') as (l' & Hl' & E').
  simpl in Hl, Hl'. assert (l' = l) as -> by congruence.
  rewrite Hti in E. rewrite Hti' in E'. injection E as ->. injection E' as ->.
  rewrite !tau_step_sigmoid. pose proof (sigmoid_mono _ _ Hle). lra.
Qed.

Lemma X4_tau_grows_with_the_prediction_witness :
  label_loop tau_step [1] 0 [0] = Ok [tau_step 1 0] /\
  label_loop tau_step [1] 0 [1] = Ok [tau_step 1 1] /\
  0 <= 1 /\
  tau_step 1 0 <= tau_step 1 1.
Proof.
  split; [reflexivity|]. split; [reflexivity|]. split; [lra|].
  apply (X4_tau_grows_with_the_prediction [1] [0] [1]
           [tau_step 1 0] [tau_step 1 1] eq_refl eq_refl
           0%nat 0 1 (tau_step 1 0) (tau_step 1 1));
    try reflexivity. lra.
Defined.

(** ** Reading the labels *)

Lemma label_loop_short f label p : forall i,
  (i <= length label < i + length p)%nat ->
  label_loop f label i p = Undef.
Proof.
  induction p as [|pi p IH]; intros i H; simpl in *; [lia|].
  unfold at_. destruct (label !! i) as [l|] eqn:El; simpl; [|reflexivity].
  apply lookup_lt_Some in El. rewrite IH by lia. reflexivity.
Qed.

(** X5. The first loop reads [data.label[i]] for every [i < p.size()]
    without a bounds check: when the label array is shorter than the
    prediction array [param[0]], the call reads out of bounds
    (undefined behaviour) and neither returns nor fails a check,
    whatever the flags and the output. *)
Theorem X5_labels_shorter_than_predictions
        (cfg : LogitLossDeltaParam) (D : RowBlock.t)
        (param : list (option positive)) (grad : option positive)
        (s : store) (a0 : option positive) (ll : positive) (lab : list R) :
  (1 <= psize_of param <= 3)%Z ->
  param !! 0%nat = Some a0 ->
  RowBlock.label D = Some ll ->
  reals s !! ll = Some lab ->
  (length lab < length (real_data a0 s))%nat ->
  CalcGrad cfg D param grad s = Undef.
Proof.
  intros Hlen Hp0 Hll Hlab Hshort. unfold CalcGrad.
  rewrite bind_eq. unfold CHECK at 1.
  replace (1 <=? psize_of param)%Z with true
    by (symmetry; apply Z.leb_le; lia).
  rewrite bind_eq. unfold CHECK at 1.
  replace (psize_of param <=? 3)%Z with true
    by (symmetry; apply Z.leb_le; lia).
  rewrite bind_eq. unfold param_at at 1, at_. rewrite Hp0. simpl.
  rewrite bind_eq. unfold CopyFrom_real, alloc_real, read_real. simpl.
  pose proof (fresh_lookup (reals s)) as Hp.
  remember (fresh (dom (reals s))) as pl eqn:Epl. clear Epl.
  assert (Hllp : ll <> pl) by congruence.
  rewrite bind_eq, Hll. simpl.
  rewrite bind_eq.
  rewrite (label_pass_run _ _ _ _ lab (real_data a0 s))
    by (simpl; map_lookup; congruence).
  rewrite label_loop_short by lia. reflexivity.
Qed.

Lemma X5_labels_shorter_than_predictions_witness :
  CalcGrad cfg_diag scen_block [Some 1%positive] (Some 5%positive)
    (scen_store [1; -1]) = Undef.
Proof.
  apply (X5_labels_shorter_than_predictions cfg_diag scen_block
           [Some 1%positive] (Some 5%positive) (scen_store [1; -1])
           (Some 1%positive) 2%positive [1; -1]).
  - split; discriminate.
  - reflexivity.
  - reflexivity.
  - reflexivity.
  - vm_compute. lia.
Defined.

(** ** The positions of the Hessian *)

(** X6. The loop over [h_pos] maps the copy of [grad_pos] entry by
    entry: a non-negative entry is incremented, a negative (unused) one
    is kept; the loop is defined unless some entry is [INT_MAX], whose
    increment overflows. *)
Theorem X6_h_pos_is_grad_pos_shifted (h : list Z) :
  shift_loop h =
  if decide (int_max ∈ h) then Undef else Ok (shifted <$> h).
Proof.
  induction h as [|z h IH].
  - destruct (decide (int_max ∈ [])) as [H|H]; [inversion H | reflexivity].
  - cbn [shift_loop fmap list_fmap]. rewrite IH. unfold shift_pos, shifted.
    destruct (Z.leb_spec 0 z) as [E0|E0].
    + destruct (Z.eqb_spec z int_max) as [E1|E1].
      * subst z.
        destruct (decide (int_max ∈ int_max :: h)) as [Hc|Hc];
          [reflexivity|]. exfalso. apply Hc. left.
      * destruct (decide (int_max ∈ h)) as [Hin|Hin];
          destruct (decide (int_max ∈ z :: h)) as [Hc|Hc]; simpl;
          try reflexivity; exfalso.
        -- apply Hc. right. exact Hin.
        -- apply elem_of_cons in Hc as [Hc|Hc]; congruence.
    + destruct (decide (int_max ∈ h)) as [Hin|Hin];
        destruct (decide (int_max ∈ z :: h)) as [Hc|Hc]; simpl;
        try reflexivity; exfalso.
      * apply Hc. right. exact Hin.
      * apply elem_of_cons in Hc as [Hc|Hc]; [|congruence].
        unfold int_max in Hc. lia.
Qed.

Lemma pos_at_shifted (grad_pos : list Z) (r : nat) :
  grad_pos <> [] ->
  SpMV.pos_at (shifted <$> grad_pos) r =
  rmap (option_map S) (SpMV.pos_at grad_pos r).
Proof.
  destruct grad_pos as [|z0 gp]; [congruence|]. intros _.
  unfold SpMV.pos_at. cbn [fmap list_fmap].
  assert (E : at_ (shifted z0 :: (shifted <$> gp)) r
              = rmap shifted (at_ (z0 :: gp) r))
    by exact (at_map shifted (z0 :: gp) r).
  rewrite E. clear E.
  destruct (at_ (z0 :: gp) r) as [z| |]; try reflexivity.
  unfold rmap, rbind, shifted.
  destruct (Z.leb_spec 0 z) as [E|E].
  - destruct (Z.ltb_spec z 0) as [E'|E']; [lia|].
    destruct (Z.ltb_spec (z + 1) 0) as [E''|E'']; [lia|].
    simpl. do 2 f_equal. lia.
  - destruct (Z.ltb_spec z 0) as [E'|E']; [reflexivity | lia].
Qed.

(** X7. With a non-empty [grad_pos] (no entry [INT_MAX]), the Hessian
    of a row goes to the output slot right after the slot of the row's
    gradient, and a row without gradient slot has no Hessian slot: slot
    [k] is a Hessian slot exactly when [k = k' + 1] for a gradient slot
    [k']. *)
Theorem X7_hessian_slot_follows_the_gradient_slot
        (grad_pos : list Z) (size k : nat) :
  grad_pos <> [] ->
  int_max ∉ grad_pos ->
  (hessian_slot grad_pos size k <->
   exists k', k = S k' /\ gradient_slot grad_pos size k').
Proof.
  intros Hne Hmax. unfold hessian_slot, gradient_slot.
  rewrite (shift_loop_defined _ Hmax). split.
  - intros (h & r & [= <-] & Hr & Hp).
    rewrite pos_at_shifted in Hp by exact Hne.
    destruct (SpMV.pos_at grad_pos r) as [[k'|]| |] eqn:E;
      try discriminate.
    injection Hp as <-. exists k'. split; [reflexivity|].
    exists r. split; [exact Hr | exact E].
  - intros (k' & -> & r & Hr & Hp).
    exists (shifted <$> grad_pos), r. split; [reflexivity|].
    split; [exact Hr|].
    rewrite pos_at_shifted by exact Hne. rewrite Hp. reflexivity.
Qed.

Lemma X7_hessian_slot_follows_the_gradient_slot_witness :
  hessian_slot [0; 2]%Z 2 3 <->
  exists k', 3%nat = S k' /\ gradient_slot [0; 2]%Z 2 k'.
Proof.
  apply (X7_hessian_slot_follows_the_gradient_slot [0; 2]%Z 2 3).
  - discriminate.
  - intros H. apply elem_of_cons in H as [H|H]; [discriminate|].
    apply elem_of_cons in H as [H|H]; [discriminate|]. inversion H.
Defined.

(** ** The block [X .* X] *)

Lemma square_loop_lookup value start n : forall i sq,
  square_loop value start i n = Ok sq ->
  length sq = n /\
  forall k, (k < n)%nat ->
    exists x, value !! (i + k + start)%nat = Some x /\
              sq !! k = Some (x * x).
Proof.
  induction n as [|n IH]; intros i sq; simpl.
  - intros [= <-]. split; [reflexivity | intros; lia].
  - unfold at_. destruct (value !! (i + start)%nat) as [v|] eqn:Ev; simpl;
      try discriminate.
    destruct (square_loop value start (S i) n) as [rest| |] eqn:Er; simpl;
      try discriminate.
    intros [= <-]. destruct (IH _ _ Er) as [Hl Hk].
    split; [simpl; congruence|].
    intros [|k] Hlt.
    + exists v. rewrite Nat.add_0_r. split; [exact Ev | reflexivity].
    + destruct (Hk k) as (x & Hx & Hs); [lia|].
      exists x. split; [|exact Hs].
      replace (i + S k + start)%nat with (S i + k + start)%nat by lia.
      exact Hx.
Qed.

(** X8. [XX] is [data] with at most the value array replaced: size,
    offsets, labels and indices are shared. With a null [data.value],
    [XX] is [data] itself and no buffer is made. Otherwise [xx_value] is
    a fresh buffer of [offset[size] - offset[0]] entries, entry [i]
    being the square of [data.value[i + offset[0]]]; no existing buffer
    changes, [data.value] included. *)
Theorem X8_squared_block_shares_the_structure
        (D XX : RowBlock.t) (xx : option positive) (s s' : store) :
  squared_block D s = Ok ((xx, XX), s') ->
  RowBlock.size XX = RowBlock.size D /\
  RowBlock.offset XX = RowBlock.offset D /\
  RowBlock.label XX = RowBlock.label D /\
  RowBlock.index XX = RowBlock.index D /\
  RowBlock.value XX = xx /\
  ints s' = ints s /\
  match RowBlock.value D with
  | None => xx = None /\ s' = s
  | Some vl =>
      exists xl start stop,
        xx = Some xl /\ reals s !! xl = None /\
        (forall l, l <> xl -> reals s' !! l = reals s !! l) /\
        int_data (Some (RowBlock.offset D)) s !! 0%nat = Some start /\
        int_data (Some (RowBlock.offset D)) s !! RowBlock.size D
        = Some stop /\
        (start <= stop)%Z /\
        length (real_data xx s') = Z.to_nat (stop - start) /\
        forall i, (i < Z.to_nat (stop - start))%nat ->
          exists x,
            real_data (Some vl) s !! (i + Z.to_nat start)%nat = Some x /\
            real_data xx s' !! i = Some (x * x)
  end.
Proof.
  unfold squared_block. destruct (RowBlock.value D) as [vl|] eqn:Ev;
    intros H.
  - apply bind_Ok in H as (offs & s1 & H1 & H).
    apply read_int_Ok in H1 as [<- <-].
    apply bind_Ok in H as (start & s2 & H2 & H).
    apply lift_Ok in H2 as [H2 ->].
    apply bind_Ok in H as (stop & s3 & H3 & H).
    apply lift_Ok in H3 as [H3 ->].
    apply bind_Ok in H as (u & s4 & H4 & H).
    destruct (Z.ltb_spec stop start) as [Hlt|Hle].
    { apply lift_Ok in H4 as [H4 _]. discriminate. }
    apply ret_Ok in H4 as [_ <-].
    apply bind_Ok in H as (vals & s5 & H5 & H).
    apply read_real_Ok in H5 as [<- <-].
    apply bind_Ok in H as (sq & s6 & H6 & H).
    apply lift_Ok in H6 as [H6 ->].
    apply bind_Ok in H as (xl & s7 & H7 & H).
    apply alloc_real_Ok in H7 as [Hxl <-].
    apply ret_Ok in H as [H <-]. injection H as <- <-.
    pose proof (fresh_lookup (reals s)) as Hfresh. rewrite Hxl in *.
    clear Hxl. cbn [RowBlock.size RowBlock.offset RowBlock.label
                      RowBlock.index RowBlock.value reals ints].
    repeat (split; [reflexivity|]).
    destruct (square_loop_lookup _ _ _ _ _ H6) as [Hlen Hsq].
    unfold at_ in H2, H3.
    destruct (int_data (Some (RowBlock.offset D)) s !! 0%nat)
      as [start'|] eqn:E2; [|discriminate]. injection H2 as ->.
    destruct (int_data (Some (RowBlock.offset D)) s !! RowBlock.size D)
      as [stop'|] eqn:E3; [|discriminate]. injection H3 as ->.
    exists xl, start, stop.
    assert (Hxx : real_data (Some xl)
                    {| reals := <[xl:=sq]> (reals s); ints := ints s |}
                  = sq).
    { unfold real_data. cbn [reals]. rewrite lookup_insert_eq.
      reflexivity. }
    rewrite Hxx.
    repeat (split; [first [reflexivity | assumption]|]).
    split; [intros l Hl; apply lookup_insert_ne; congruence|].
    repeat (split; [first [reflexivity | assumption]|]).
    intros i Hi. destruct (Hsq i Hi) as (x & Hx & Hs).
    exists x. split; [exact Hx | exact Hs].
  - apply ret_Ok in H as [H <-]. injection H as <- <-.
    rewrite Ev. repeat (split; [reflexivity|]). split; reflexivity.
Qed.

Lemma X8_squared_block_shares_the_structure_witness :
  exists xx XX s',
    squared_block scen_block (scen_store [1; -1]) = Ok ((xx, XX), s') /\
    RowBlock.size XX = RowBlock.size scen_block /\
    RowBlock.value XX = xx.
Proof.
  eexists _, _, _.
  assert (H : squared_block scen_block (scen_store [1; -1])
              = Ok ((_, _), _)) by reflexivity.
  split; [exact H|].
  pose proof (X8_squared_block_shares_the_structure _ _ _ _ _ H) as HX.
  split; [apply HX | apply HX].
Defined.

(** ** The parameter list *)

(** X9. The third parameter [delta] is never read: [CalcGrad] only makes
    a view of [param[2]], so two calls that differ in the third
    parameter alone are the same, in every configuration. *)
Theorem X9_delta_is_never_read
        (cfg : LogitLossDeltaParam) (D : RowBlock.t)
        (a b c c' grad : option positive) (s : store) :
  CalcGrad cfg D [a; b; c] grad s = CalcGrad cfg D [a; b; c'] grad s.
Proof. reflexivity. Qed.

(** X10. Unless only the upper bound is asked for, the presence of a
    third parameter makes no difference: with [compute_diag_hession] set
    or [compute_upper_diag_hession] unset, the call with three
    parameters is the call with the first two. *)
Theorem X10_third_parameter_only_counts_for_the_upper_bound
        (cfg : LogitLossDeltaParam) (D : RowBlock.t)
        (a b c grad : option positive) (s : store) :
  (compute_diag_hession cfg <> 0 \/ compute_upper_diag_hession cfg = 0)%Z ->
  CalcGrad cfg D [a; b; c] grad s = CalcGrad cfg D [a; b] grad s.
Proof.
  intros H. unfold CalcGrad, hessian_step.
  destruct (compute_diag_hession cfg =? 0)%Z eqn:Ed.
  - destruct H as [H|H]; [apply Z.eqb_eq in Ed; contradiction|].
    rewrite H. reflexivity.
  - reflexivity.
Qed.

Lemma X10_third_parameter_only_counts_for_the_upper_bound_witness :
  CalcGrad cfg_diag scen_block [Some 3%positive; Some 3%positive; None]
    (Some 5%positive) (scen_store [1; -1]) =
  CalcGrad cfg_diag scen_block [Some 3%positive; Some 3%positive]
    (Some 5%positive) (scen_store [1; -1]).
Proof.
  apply (X10_third_parameter_only_counts_for_the_upper_bound cfg_diag
           scen_block (Some 3%positive) (Some 3%positive) None
           (Some 5%positive) (scen_store [1; -1])).
  left. discriminate.
Defined.

(** X11. An empty view as second parameter is the same as no second
    parameter: [Predict] and [CalcGrad] then take an empty position
    array either way. *)
Theorem X11_empty_positions_are_absent_positions
        (cfg : LogitLossDeltaParam) (D : RowBlock.t)
        (a out : option positive) (s : store) :
  Predict D [a; None] out s = Predict D [a] out s /\
  CalcGrad cfg D [a; None] out s = CalcGrad cfg D [a] out s.
Proof. split; reflexivity. Qed.

(** ** The encoding of the labels *)

Lemma label_sign_same l l' :
  (0 < l <-> 0 < l') -> label_sign l = label_sign l'.
Proof.
  intros H. unfold label_sign.
  destruct (Rlt_dec 0 l) as [Hl|Hl], (Rlt_dec 0 l') as [Hl'|Hl'];
    try reflexivity; exfalso; tauto.
Qed.

Lemma label_loop_same_sign (f : R -> R -> R) (lab lab' : list R) :
  (forall l l' x, (0 < l <-> 0 < l') -> f l x = f l' x) ->
  Forall2 (fun l l' => 0 < l <-> 0 < l') lab lab' ->
  forall p i, label_loop f lab i p = label_loop f lab' i p.
Proof.
  intros Hf Hall. induction p as [|pi p IH]; intros i; simpl;
    [reflexivity|].
  unfold at_. rewrite IH.
  destruct (lab !! i) as [l|] eqn:El.
  - destruct (Forall2_lookup_l _ _ _ _ _ Hall El) as (l' & -> & Hl).
    simpl. rewrite (Hf l l' pi Hl). reflexivity.
  - apply lookup_ge_None in El.
    rewrite (Forall2_length _ _ _ Hall) in El.
    apply lookup_ge_None in El. rewrite El. reflexivity.
Qed.

(** X12. The labels count by their sign alone: both loops test
    [data.label[i] > 0], so two label arrays that are positive at the
    same rows (a 0/1 and a -1/+1 encoding of the same classes, say)
    give the same [tau] and the same curvature weights. *)
Theorem X12_labels_count_by_their_sign (lab lab' p : list R) :
  Forall2 (fun l l' => 0 < l <-> 0 < l') lab lab' ->
  label_loop tau_step lab 0 p = label_loop tau_step lab' 0 p /\
  label_loop curv_step lab 0 p = label_loop curv_step lab' 0 p.
Proof.
  intros Hall. split; apply label_loop_same_sign; try exact Hall.
  - intros l l' x H. unfold tau_step. rewrite (label_sign_same _ _ H).
    reflexivity.
  - intros l l' x H. unfold curv_step. rewrite (label_sign_same _ _ H).
    reflexivity.
Qed.

Lemma X12_labels_count_by_their_sign_witness :
  label_loop tau_step [1; 0] 0 [0; 0] = label_loop tau_step [1; -1] 0 [0; 0]
  /\ label_loop curv_step [1; 0] 0 [0; 0]
     = label_loop curv_step [1; -1] 0 [0; 0].
Proof.
  apply (X12_labels_count_by_their_sign [1; 0] [1; -1] [0; 0]).
  repeat constructor; intros; lra.
Defined.

(** ** The diagonal Hessian on top of the gradient *)

Lemma curv_loop_nonneg lab pred tau p i pi :
  label_loop tau_step lab 0 pred = Ok tau ->
  label_loop curv_step lab 0 tau = Ok p ->
  p !! i = Some pi -> 0 <= pi.
Proof.
  intros Ht Hc Hpi.
  pose proof (label_loop_length _ _ _ _ _ Ht) as Hlt.
  pose proof (label_loop_length _ _ _ _ _ Hc) as Hlc.
  apply lookup_lt_Some in Hpi as Hi.
  destruct (lookup_lt_is_Some_2 pred i) as [x Hx]; [lia|].
  destruct (label_loop_lookup _ _ _ _ _ _ _ Ht Hx) as (l & Hl & Hti).
  destruct (label_loop_lookup _ _ _ _ _ _ _ Hc Hti) as (l' & Hl' & Hpi').
  simpl in Hl, Hl'. assert (l' = l) as -> by congruence.
  rewrite Hpi in Hpi'. injection Hpi' as ->. rewrite curv_after_tau.
  pose proof (logistic_bounds (label_sign l * x)) as [H0 H1].
  apply Rmult_le_pos; lra.
Qed.

Lemma entry_value_nonneg vals j v :
  (forall vs i x, vals = Some vs -> vs !! i = Some x -> 0 <= x) ->
  SpMV.entry_value vals j = Ok v -> 0 <= v.
Proof.
  intros Hv. unfold SpMV.entry_value, at_. destruct vals as [vs|].
  - destruct (vs !! j) as [x|] eqn:E; [|discriminate].
    intros [= <-]. eapply Hv; eauto.
  - intros [= <-]. lra.
Qed.

Lemma row_dot_nonneg idx vals x xp n : forall j d,
  (forall vs i v, vals = Some vs -> vs !! i = Some v -> 0 <= v) ->
  (forall i xi, x !! i = Some xi -> 0 <= xi) ->
  SpMV.row_dot idx vals x xp j n = Ok d -> 0 <= d.
Proof.
  induction n as [|n IH]; intros j d Hv Hx; simpl.
  - intros [= <-]. lra.
  - destruct (at_ idx j) as [c| |]; simpl; try discriminate.
    destruct (SpMV.entry_value vals j) as [v| |] eqn:Ev; simpl;
      try discriminate.
    destruct (SpMV.pos_at xp (Z.to_nat c)) as [k| |]; simpl;
      try discriminate.
    destruct (SpMV.row_dot idx vals x xp (S j) n) as [rest| |] eqn:Er;
      simpl; try discriminate.
    pose proof (IH _ _ Hv Hx Er) as Hrest.
    pose proof (entry_value_nonneg _ _ _ Hv Ev) as Hv0.
    destruct k as [k|].
    + unfold at_. destruct (x !! k) as [xk|] eqn:Ek; simpl;
        try discriminate.
      intros [= <-]. pose proof (Hx _ _ Ek).
      pose proof (Rmult_le_pos _ _ Hv0 H). lra.
    + intros [= <-]. exact Hrest.
Qed.

Lemma times_updates_nonneg offs idx vals x xp yp n : forall r us k a,
  (forall vs i v, vals = Some vs -> vs !! i = Some v -> 0 <= v) ->
  (forall i xi, x !! i = Some xi -> 0 <= xi) ->
  SpMV.times_updates offs idx vals x xp yp r n = Ok us ->
  (k, a) ∈ us -> 0 <= a.
Proof.
  induction n as [|n IH]; intros r us k a Hv Hx; simpl.
  - intros [= <-] Hin. inversion Hin.
  - destruct (SpMV.pos_at yp r) as [o| |] eqn:Ep; simpl; try discriminate.
    destruct (match o with
              | Some k0 => _
              | None => Ok []
              end) as [u| |] eqn:Eu; simpl; try discriminate.
    destruct (SpMV.times_updates offs idx vals x xp yp (S r) n)
      as [rest| |] eqn:Er; simpl; try discriminate.
    intros [= <-] Hin. apply elem_of_app in Hin as [Hin|Hin].
    + destruct o as [k0|].
      * destruct (SpMV.row_range offs r) as [rg| |]; simpl in Eu;
          try discriminate.
        destruct (SpMV.row_dot _ _ _ _ _ _) as [d| |] eqn:Ed; simpl in Eu;
          try discriminate.
        injection Eu as <-. apply list_elem_of_singleton in Hin.
        injection Hin as -> ->. eapply row_dot_nonneg; eauto.
      * injection Eu as <-. inversion Hin.
    + eapply IH; eauto.
Qed.

Lemma accumulate_nonneg us : forall y y' k v v',
  (forall j a, (j, a) ∈ us -> 0 <= a) ->
  SpMV.accumulate y us = Ok y' ->
  y !! k = Some v -> y' !! k = Some v' -> v <= v'.
Proof.
  induction us as [|[j a] us IH]; intros y y' k v v' Hus; simpl.
  - intros [= <-] Hv Hv'. rewrite Hv in Hv'. injection Hv' as ->. lra.
  - unfold at_. destruct (y !! j) as [yj|] eqn:Ej; simpl; try discriminate.
    intros Hacc Hv Hv'.
    assert (Ha : 0 <= a) by (apply (Hus j a); left).
    assert (Hus' : forall j' a', (j', a') ∈ us -> 0 <= a')
      by (intros j' a' Hin; apply (Hus j' a'); right; exact Hin).
    destruct (decide (k = j)) as [->|Hkj].
    + rewrite Ej in Hv. injection Hv as ->.
      assert (Hk : <[j := v + a]> y !! j = Some (v + a)).
      { apply list_lookup_insert_eq. apply lookup_lt_Some in Ej. exact Ej. }
      pose proof (IH _ _ _ _ _ Hus' Hacc Hk Hv'). lra.
    + assert (Hk : <[j := yj + a]> y !! k = Some v).
      { rewrite list_lookup_insert_ne by auto. exact Hv. }
      exact (IH _ _ _ _ _ Hus' Hacc Hk Hv').
Qed.

Lemma squares_nonneg size offs vals xx :
  squares size offs vals = Ok xx ->
  forall vs i v, xx = Some vs -> vs !! i = Some v -> 0 <= v.
Proof.
  unfold squares. destruct vals as [v0|].
  - destruct (at_ offs 0) as [start| |]; simpl; try discriminate.
    destruct (at_ offs size) as [stop| |]; simpl; try discriminate.
    destruct (stop <? start)%Z; try discriminate.
    destruct (square_loop _ _ _ _) as [sq| |] eqn:Es; simpl;
      try discriminate.
    intros [= <-] vs i v [= <-] Hv.
    destruct (square_loop_lookup _ _ _ _ _ Es) as [Hlen Hsq].
    apply lookup_lt_Some in Hv as Hi. rewrite Hlen in Hi.
    destruct (Hsq i Hi) as (x & _ & Hx).
    rewrite Hv in Hx. injection Hx as ->.
    pose proof (Rle_0_sqr x) as H. unfold Rsqr in H. exact H.
  - intros [= <-] vs i v H. discriminate.
Qed.

(** A returning call with [compute_diag_hession] set, split into the
    first-order call and the second multiply. *)
Lemma diag_run_split cfg D param g s a0 ll lab offs idx vals g0 s2 :
  (1 <= psize_of param <= 3)%Z ->
  param !! 0%nat = Some a0 ->
  ints s !! RowBlock.offset D = Some offs ->
  ints s !! RowBlock.index D = Some idx ->
  RowBlock.label D = Some ll ->
  reals s !! ll = Some lab ->
  ll <> g ->
  RowBlock.value D <> Some g ->
  value_view s D vals ->
  reals s !! g = Some g0 ->
  compute_diag_hession cfg <> 0%Z ->
  CalcGrad cfg D param (Some g) s = Ok (tt, s2) ->
  exists tau g1 h xx p us g2,
    label_loop tau_step lab 0 (real_data a0 s) = Ok tau /\
    CalcGrad cfg_first_order D param (Some g) s
    = Ok (tt, Store (<[g := g1]> (reals s)) (ints s)) /\
    shift_loop (int_data (grad_pos_of param) s) = Ok h /\
    squares (RowBlock.size D) offs vals = Ok xx /\
    label_loop curv_step lab 0 tau = Ok p /\
    SpMV.times_updates offs idx xx p [] h 0 (RowBlock.size D) = Ok us /\
    SpMV.accumulate g1 us = Ok g2 /\
    s2 = Store (<[g := g2]> (reals s)) (ints s).
Proof.
  intros Hlen Hp0 Hoffs Hidx Hll Hlab Hllg Hvg Hval Hg Hd H.
  rewrite (CalcGrad_run cfg D param g s a0 ll lab offs idx vals g0) in H
    by assumption.
  rewrite (CalcGrad_run cfg_first_order D param g s a0 ll lab offs idx
             vals g0) by assumption.
  unfold grad_after in *.
  destruct (first_order _ _ _ _ _ _ _ _) as [[tau g1]| |] eqn:Efo;
    try discriminate.
  cbn [rbind fst snd] in *.
  cbn [compute_diag_hession compute_upper_diag_hession cfg_first_order
         Z.eqb andb].
  apply Z.eqb_neq in Hd. rewrite Hd in H. cbn [andb negb] in H.
  destruct (shift_loop _) as [h| |] eqn:Eh; try discriminate.
  cbn [rbind] in H.
  destruct (squares _ _ _) as [xx| |] eqn:Exx; try discriminate.
  cbn [rbind] in H.
  destruct (label_loop curv_step lab 0 tau) as [p| |] eqn:Ep;
    try discriminate.
  cbn [rbind] in H.
  destruct (SpMV.times_updates offs idx xx p [] h 0 (RowBlock.size D))
    as [us| |] eqn:Eus; try discriminate.
  cbn [rbind] in H.
  destruct (SpMV.accumulate g1 us) as [g2| |] eqn:Eacc; try discriminate.
  rewrite put_real_Ok in H. injection H as <-.
  exists tau, g1, h, xx, p, us, g2.
  unfold first_order in Efo.
  destruct (label_loop tau_step lab 0 (real_data a0 s)) as [tau'| |]
    eqn:Et; try discriminate.
  cbn [rbind] in Efo.
  destruct (SpMV.times_updates offs idx vals tau' _ _ _ _) as [us1| |];
    try discriminate.
  cbn [rbind] in Efo.
  destruct (SpMV.accumulate g0 us1) as [g1'| |]; try discriminate.
  injection Efo as -> ->.
  repeat (split; [first [reflexivity | assumption]|]). reflexivity.
Qed.

Lemma real_data_put g v m i :
  real_data (Some g) (Store (<[g := v]> m) i) = v.
Proof. unfold real_data. cbn [reals]. rewrite lookup_insert_eq. reflexivity. Qed.

(** X13. A returning call with [compute_diag_hession] set is the
    first-order call followed by one more accumulation: the first-order
    call on the same store returns too, and the two outputs agree on
    every slot that is not the Hessian slot of some row. *)
Theorem X13_diagonal_call_extends_the_first_order_call
        (cfg : LogitLossDeltaParam) (D : RowBlock.t)
        (param : list (option positive)) (g : positive) (s : store)
        (a0 : option positive) (ll : positive) (lab : list R)
        (offs idx : list Z) (vals : option (list R)) (g0 : list R)
        (s2 : store) :
  (1 <= psize_of param <= 3)%Z ->
  param !! 0%nat = Some a0 ->
  ints s !! RowBlock.offset D = Some offs ->
  ints s !! RowBlock.index D = Some idx ->
  RowBlock.label D = Some ll ->
  reals s !! ll = Some lab ->
  ll <> g ->
  RowBlock.value D <> Some g ->
  value_view s D vals ->
  reals s !! g = Some g0 ->
  compute_diag_hession cfg <> 0%Z ->
  CalcGrad cfg D param (Some g) s = Ok (tt, s2) ->
  exists s1,
    CalcGrad cfg_first_order D param (Some g) s = Ok (tt, s1) /\
    forall k,
      ~ hessian_slot (int_data (grad_pos_of param) s) (RowBlock.size D) k ->
      real_data (Some g) s2 !! k = real_data (Some g) s1 !! k.
Proof.
  intros Hlen Hp0 Hoffs Hidx Hll Hlab Hllg Hvg Hval Hg Hd H.
  destruct (diag_run_split _ _ _ _ _ _ _ _ _ _ _ _ _ Hlen Hp0 Hoffs Hidx
              Hll Hlab Hllg Hvg Hval Hg Hd H)
    as (tau & g1 & h & xx & p & us & g2 & Ht & H1 & Hh & Hxx & Hp & Hus
        & Hacc & ->).
  eexists. split; [exact H1|].
  intros k Hk. rewrite !real_data_put.
  eapply accumulate_frame; [exact Hacc|].
  intros a Hin. apply Hk.
  destruct (times_updates_slots _ _ _ _ _ _ _ _ _ _ _ Hus Hin)
    as (r & Hr & Hpos).
  exists h, r. split; [exact Hh|]. split; [lia | exact Hpos].
Qed.

Lemma X13_diagonal_call_extends_the_first_order_call_witness :
  exists s1,
    CalcGrad cfg_first_order scen_block [Some 3%positive; Some 3%positive]
      (Some 5%positive) (scen_store [1; -1]) = Ok (tt, s1) /\
    forall k,
      ~ hessian_slot
          (int_data (grad_pos_of [Some 3%positive; Some 3%positive])
             (scen_store [1; -1]))
          (RowBlock.size scen_block) k ->
      real_data (Some 5%positive) (scen_done [1; -1] [0; 1/2; 0; 1/2]) !! k
      = real_data (Some 5%positive) s1 !! k.
Proof.
  assert (Hv : value_view (scen_store [1; -1]) scen_block
                 (Some [1; 1; 1; 1])).
  { exists [1; 1; 1; 1]. split; reflexivity. }
  apply (X13_diagonal_call_extends_the_first_order_call cfg_diag scen_block
           [Some 3%positive; Some 3%positive] 5%positive
           (scen_store [1; -1]) (Some 3%positive) 2%positive [1; -1]
           [0; 2; 4]%Z [0; 1; 0; 1]%Z (Some [1; 1; 1; 1]) [0; 0; 0; 0]
           (scen_done [1; -1] [0; 1/2; 0; 1/2]));
    [ split; discriminate | reflexivity | reflexivity | reflexivity
    | reflexivity | reflexivity | discriminate | discriminate | exact Hv
    | reflexivity | discriminate | exact scen_run_diag ].
Defined.

(** X14. The diagonal Hessian never lowers an output slot: every
    contribution of the second multiply is a sum of squared values times
    curvature weights, so each slot of the output of a returning call
    with [compute_diag_hession] set is at least what the first-order
    call leaves there. *)
Theorem X14_hessian_contributions_are_not_negative
        (cfg : LogitLossDeltaParam) (D : RowBlock.t)
        (param : list (option positive)) (g : positive) (s : store)
        (a0 : option positive) (ll : positive) (lab : list R)
        (offs idx : list Z) (vals : option (list R)) (g0 : list R)
        (s2 : store) :
  (1 <= psize_of param <= 3)%Z ->
  param !! 0%nat = Some a0 ->
  ints s !! RowBlock.offset D = Some offs ->
  ints s !! RowBlock.index D = Some idx ->
  RowBlock.label D = Some ll ->
  reals s !! ll = Some lab ->
  ll <> g ->
  RowBlock.value D <> Some g ->
  value_view s D vals ->
  reals s !! g = Some g0 ->
  compute_diag_hession cfg <> 0%Z ->
  CalcGrad cfg D param (Some g) s = Ok (tt, s2) ->
  exists s1,
    CalcGrad cfg_first_order D param (Some g) s = Ok (tt, s1) /\
    forall k a b,
      real_data (Some g) s1 !! k = Some a ->
      real_data (Some g) s2 !! k = Some b ->
      a <= b.
Proof.
  intros Hlen Hp0 Hoffs Hidx Hll Hlab Hllg Hvg Hval Hg Hd H.
  destruct (diag_run_split _ _ _ _ _ _ _ _ _ _ _ _ _ Hlen Hp0 Hoffs Hidx
              Hll Hlab Hllg Hvg Hval Hg Hd H)
    as (tau & g1 & h & xx & p & us & g2 & Ht & H1 & Hh & Hxx & Hp & Hus
        & Hacc & ->).
  eexists. split; [exact H1|].
  intros k a b. rewrite !real_data_put. intros Ha Hb.
  eapply accumulate_nonneg; [|exact Hacc|exact Ha|exact Hb].
  intros j c Hin.
  eapply times_updates_nonneg; [| |exact Hus|exact Hin].
  - intros vs i v Hvs Hv. eapply squares_nonneg; eauto.
  - intros i pi Hpi. eapply curv_loop_nonneg; eauto.
Qed.

Lemma X14_hessian_contributions_are_not_negative_witness :
  exists s1,
    CalcGrad cfg_first_order scen_block [Some 3%positive; Some 3%positive]
      (Some 5%positive) (scen_store [1; -1]) = Ok (tt, s1) /\
    forall k a b,
      real_data (Some 5%positive) s1 !! k = Some a ->
      real_data (Some 5%positive) (scen_done [1; -1] [0; 1/2; 0; 1/2]) !! k
      = Some b ->
      a <= b.
Proof.
  assert (Hv : value_view (scen_store [1; -1]) scen_block
                 (Some [1; 1; 1; 1])).
  { exists [1; 1; 1; 1]. split; reflexivity. }
  apply (X14_hessian_contributions_are_not_negative cfg_diag scen_block
           [Some 3%positive; Some 3%positive] 5%positive
           (scen_store [1; -1]) (Some 3%positive) 2%positive [1; -1]
           [0; 2; 4]%Z [0; 1; 0; 1]%Z (Some [1; 1; 1; 1]) [0; 0; 0; 0]
           (scen_done [1; -1] [0; 1/2; 0; 1/2]));
    [ split; discriminate | reflexivity | reflexivity | reflexivity
    | reflexivity | reflexivity | discriminate | discriminate | exact Hv
    | reflexivity | discriminate | exact scen_run_diag ].
Defined.

(** ** [Predict] with nothing to add *)

Lemma row_scatter_zero idx vals yp n : forall j us k a,
  SpMV.row_scatter idx vals yp 0 j n = Ok us -> (k, a) ∈ us -> a = 0.
Proof.
  induction n as [|n IH]; intros j us k a; simpl.
  - intros [= <-] Hin. inversion Hin.
  - destruct (at_ idx j) as [c| |]; simpl; try discriminate.
    destruct (SpMV.entry_value vals j) as [v| |]; simpl; try discriminate.
    destruct (SpMV.pos_at yp (Z.to_nat c)) as [o| |]; simpl;
      try discriminate.
    destruct (SpMV.row_scatter idx vals yp 0 (S j) n) as [rest| |] eqn:Er;
      simpl; try discriminate.
    intros [= <-] Hin. destruct o as [k0|].
    + apply elem_of_cons in Hin as [Hin|Hin].
      * injection Hin as -> ->. ring.
      * eapply IH; eauto.
    + eapply IH; eauto.
Qed.

Lemma trans_updates_zero offs idx vals x xp yp n : forall r us k a,
  (forall i xi, x !! i = Some xi -> xi = 0) ->
  SpMV.trans_updates offs idx vals x xp yp r n = Ok us ->
  (k, a) ∈ us -> a = 0.
Proof.
  induction n as [|n IH]; intros r us k a Hx; simpl.
  - intros [= <-] Hin. inversion Hin.
  - destruct (SpMV.pos_at xp r) as [o| |]; simpl; try discriminate.
    destruct (match o with
              | Some k0 => _
              | None => Ok []
              end) as [u| |] eqn:Eu; simpl; try discriminate.
    destruct (SpMV.trans_updates offs idx vals x xp yp (S r) n)
      as [rest| |] eqn:Er; simpl; try discriminate.
    intros [= <-] Hin. apply elem_of_app in Hin as [Hin|Hin].
    + destruct o as [k0|].
      * unfold at_ in Eu. destruct (x !! k0) as [xk|] eqn:Ek; simpl in Eu;
          try discriminate.
        rewrite (Hx _ _ Ek) in Eu.
        destruct (SpMV.row_range offs r) as [rg| |]; simpl in Eu;
          try discriminate.
        eapply row_scatter_zero; eauto.
      * injection Eu as <-. inversion Hin.
    + eapply IH; eauto.
Qed.

Lemma accumulate_zero us : forall y y',
  (forall k a, (k, a) ∈ us -> a = 0) ->
  SpMV.accumulate y us = Ok y' -> y' = y.
Proof.
  induction us as [|[j a] us IH]; intros y y' Hus; simpl.
  - intros [= <-]. reflexivity.
  - unfold at_. destruct (y !! j) as [yj|] eqn:Ej; simpl; try discriminate.
    rewrite (Hus j a) by left. rewrite Rplus_0_r.
    rewrite list_insert_id by exact Ej.
    apply IH. intros k b Hin. apply (Hus k b). right. exact Hin.
Qed.

(** X15. [Predict] with a [delta_w] of zeros adds nothing: a call that
    returns leaves the whole store, [pred] included, as it was, whatever
    the block and the position array. *)
Theorem X15_predict_with_a_zero_delta
        (D : RowBlock.t) (param : list (option positive))
        (pred a0 : option positive) (s s' : store) :
  param !! 0%nat = Some a0 ->
  (forall i x, real_data a0 s !! i = Some x -> x = 0) ->
  Predict D param pred s = Ok (tt, s') ->
  s' = s.
Proof.
  intros Hp0 Hzero H.
  destruct (Predict_Ok_length _ _ _ _ _ H) as [Hlen _].
  rewrite (Predict_run D param pred s a0 Hlen Hp0) in H.
  destruct (SpMV.trans_updates _ _ _ _ _ _ _ _) as [us| |] eqn:Eus;
    try discriminate.
  cbn [rbind] in H.
  destruct (SpMV.accumulate (real_data pred s) us) as [v| |] eqn:Ev;
    try discriminate.
  apply accumulate_zero in Ev;
    [|intros k a Hin; eapply trans_updates_zero; eauto].
  subst v. unfold write_real in H. destruct pred as [l|].
  - injection H as <-. destruct s as [r i]. cbn [reals ints]. f_equal.
    apply alter_id. intros x Hx. unfold real_data. cbn [reals].
    rewrite Hx. reflexivity.
  - injection H as <-. reflexivity.
Qed.

Lemma X15_predict_with_a_zero_delta_witness :
  Predict scen_block [Some 4%positive] (Some 3%positive)
    (scen_store [1; -1]) = Ok (tt, scen_store [1; -1]) /\
  scen_store [1; -1] = scen_store [1; -1].
Proof.
  split; [exact scen_predict|].
  apply (X15_predict_with_a_zero_delta scen_block [Some 4%positive]
           (Some 3%positive) (Some 4%positive) (scen_store [1; -1])
           (scen_store [1; -1])).
  - reflexivity.
  - change (real_data (Some 4%positive) (scen_store [1; -1]))
      with [0; 0].
    intros [|[|i]] x Hx; [injection Hx as <-; reflexivity
                         | injection Hx as <-; reflexivity
                         | discriminate Hx].
  - exact scen_predict.
Defined.
